(** * ArduinoOSC publish client: a shallow embedding of [OSCClient.h]

    The development follows the header top-down: the rate-limit state of
    [element::Base], the four element kinds and their [encodeTo], the
    [Destination] key with its comparison operators, the transport
    [Client], and the publish [Manager] with its registry and [post] tick.

    Conventions.
    - [uint32_t] and [uint16_t] values are integers of [Z]; every
      arithmetic operation of the source that can leave the range is
      followed by an explicit [wrap32].
    - Arduino [String]s are [string]s; [operator<] on them is the
      byte-wise lexicographic order of [strcmp].
    - Objects behind an [ElementRef] (a shared pointer) live in a heap, a
      list indexed by location, so that two handles to one object alias;
      a handle is a location or null.
    - Fallible steps (following a null handle) return [option]. *)

From Stdlib Require Import ZArith String Ascii Lia Sorted.
From stdpp Require Import list strings.

Local Open Scope Z_scope.
Local Set Warnings "-register-all".

(** ** Machine integers *)

Definition wrap32 (z : Z) : Z := z mod 2 ^ 32.

Definition uint32 (z : Z) : Prop := 0 <= z < 2 ^ 32.

(** ** The collaborators consumed through narrow interfaces *)

(** Modelled from the spec: the argument types of [Message::push] are
    declared in OscMessage.h, outside OSCClient.h.
    The spec lists "numeric, string, boolean, blob"; floats are kept as
    their bit pattern. *)
Inductive OscArg : Type :=
| ArgInt32 (i : Z)
| ArgFloat (bits : Z)
| ArgString (s : string)
| ArgBool (b : bool)
| ArgBlob (bytes : list Z).

(** Modelled from the spec: the message builder of OscMessage.h.
    "[init(address)] resets to a fresh message for the given OSC address
    pattern; [push(value)] appends one typed argument in call order." *)
Record Message : Type := mkMessage {
  address : string;
  args : list OscArg
}.

Definition Message_init (addr : string) (m : Message) : Message :=
  {| address := addr; args := [] |}.

Definition push (v : OscArg) (m : Message) : Message :=
  {| address := address m; args := args m ++ [v] |}.

(** Caller-owned storage: the variables that [Value] elements are bound to
    and that getters read.  A cell always holds some value; a reference to
    storage that has been destroyed is outside the model. *)
Definition Cell : Type := nat.
Definition Store : Type := Cell -> OscArg.

Definition store_set (c : Cell) (v : OscArg) (st : Store) : Store :=
  fun c' => if Nat.eqb c' c then v else st c'.

(** A [std::function<T()>]: a call yields a value and may change the
    caller's storage. *)
Definition Getter : Type := Store -> OscArg * Store.

(** The usual getter [[&]{ return x; }] over the cell of [x]. *)
Definition read_cell (c : Cell) : Getter := fun st => (st c, st).

(** ** namespace element *)

Record Base : Type := mkBase {
  last_publish_us : Z;
  interval_us : Z
}.

(** The member initialisers of [Base]: [last_publish_us {0}],
    [interval_us {33333}]. *)
Definition Base_init : Base :=
  {| last_publish_us := 0; interval_us := 33333 |}.

(** [bool next() const { return micros() >= (last_publish_us + interval_us); }]
    with [now] the value that [micros()] returns.  The sum is a [uint32_t]
    sum and wraps. *)
Definition next (now : Z) (b : Base) : bool :=
  now >=? wrap32 (last_publish_us b + interval_us b).

Definition setIntervalUsec (us : Z) (b : Base) : Base :=
  {| last_publish_us := last_publish_us b; interval_us := us |}.

Definition set_last_publish_us (now : Z) (b : Base) : Base :=
  {| last_publish_us := now; interval_us := interval_us b |}.

(** What the member [const T t] of a [Const<T>] holds.  For a value type
    it is the copy of the value.  For [T = const char*], the type that the
    C-string overloads of [publish] and [publishMulticast] instantiate, it
    is the copy of the pointer: the place of the caller's character
    buffer, not the characters. *)
Inductive Held : Type :=
| Copy (v : OscArg)
| CString (p : Cell).

(** The argument that [m.push(t)] appends for a held [t]: the characters
    of a C string are read from the buffer when it is pushed. *)
Definition held_value (st : Store) (t : Held) : OscArg :=
  match t with
  | Copy v => v
  | CString p => st p
  end.

(** The four classes derived from [Base].  The children of a [Tuple] are
    owned by the tuple alone, so they are kept by value. *)
Inductive Element : Type :=
| Value (b : Base) (t : Cell)
| Const (b : Base) (t : Held)
| Function (b : Base) (getter : Getter)
| Tuple (b : Base) (ts : list Element).

Definition base (e : Element) : Base :=
  match e with
  | Value b _ | Const b _ | Function b _ | Tuple b _ => b
  end.

Definition with_base (f : Base -> Base) (e : Element) : Element :=
  match e with
  | Value b t => Value (f b) t
  | Const b t => Const (f b) t
  | Function b g => Function (f b) g
  | Tuple b ts => Tuple (f b) ts
  end.

(** [virtual void encodeTo(Message& m)], one case per override.  The
    message and the caller's storage are threaded through. *)
Fixpoint encodeTo (e : Element) (st : Store) (m : Message) : Message * Store :=
  match e with
  | Value _ t => (push (st t) m, st)
  | Const _ t => (push (held_value st t) m, st)
  | Function _ getter => let (v, st') := getter st in (push v m, st')
  | Tuple _ ts =>
      (fix each (ts : list Element) (st : Store) (m : Message) : Message * Store :=
         match ts with
         | [] => (m, st)
         | t :: rest => let (m', st') := encodeTo t st m in each rest st' m'
         end) ts st m
  end.

(** The loop of [Tuple::encodeTo] on its own, for statements about it. *)
Fixpoint encode_each (ts : list Element) (st : Store) (m : Message) : Message * Store :=
  match ts with
  | [] => (m, st)
  | t :: rest => let (m', st') := encodeTo t st m in encode_each rest st' m'
  end.

(** ** Destination *)

Record Destination : Type := mkDestination {
  ip : string;
  port : Z;
  addr : string;
  is_multicast : bool
}.

(** [Destination(const String& ip, const uint16_t port, const String& addr,
    bool isMulticast = false)] *)
Definition Destination_new (ip : string) (port : Z) (addr : string) : Destination :=
  mkDestination ip port addr false.

(** [Destination& operator=(const Destination& dest)]: the assignments of
    the body, in order, applied to the left operand [this]. *)
Definition Destination_copy_assign (this dest : Destination) : Destination :=
  let this := mkDestination (ip dest) (port this) (addr this) (is_multicast this) in
  let this := mkDestination (ip this) (port dest) (addr this) (is_multicast this) in
  let this := mkDestination (ip this) (port this) (addr this) (is_multicast dest) in
  this.

(** [Destination& operator=(Destination&& dest)]: the assignments of the
    body, in order, on the two operands; the result is the left operand
    [this] and the right operand [dest] as the operator leaves them.
    Moving from a [String] hands its characters over and leaves it empty;
    moving from a [uint16_t] or a [bool] copies it. *)
Definition Destination_move_assign (this dest : Destination) : Destination * Destination :=
  let this := mkDestination (ip dest) (port this) (addr this) (is_multicast this) in
  let dest := mkDestination EmptyString (port dest) (addr dest) (is_multicast dest) in
  let this := mkDestination (ip this) (port dest) (addr this) (is_multicast this) in
  let this := mkDestination (ip this) (port this) (addr dest) (is_multicast this) in
  let dest := mkDestination (ip dest) (port dest) EmptyString (is_multicast dest) in
  let this := mkDestination (ip this) (port this) (addr this) (is_multicast dest) in
  (this, dest).

(** [operator<]: the nested conditional of the source. *)
Definition Destination_lt (l rhs : Destination) : bool :=
  if negb (String.eqb (ip l) (ip rhs)) then String.ltb (ip l) (ip rhs)
  else if negb (port l =? port rhs) then port l <? port rhs
  else String.ltb (addr l) (addr rhs).

Definition Destination_eq (l rhs : Destination) : bool :=
  String.eqb (ip l) (ip rhs) && (port l =? port rhs)
  && String.eqb (addr l) (addr rhs)
  && Bool.eqb (is_multicast l) (is_multicast rhs).

Definition Destination_ne (l rhs : Destination) : bool :=
  negb (Destination_eq l rhs).

(** ** Handles, the heap and the registry *)

(** An [ElementRef] is a shared pointer: it is null, or it owns the object
    in the heap cell at its location. *)
Abbreviation ElementRef := (option nat).

(** [*ref]: the object a handle owns; the null handle owns none. *)
Definition deref (h : list Element) (ref : ElementRef) : option Element :=
  l ← ref; h !! l.

(** [*ref = e]: the object a handle owns is replaced. *)
Definition assign (ref : ElementRef) (e : Element) (h : list Element) : list Element :=
  match ref with
  | Some l => <[l := e]> h
  | None => h
  end.

(** [h !! ref] and [<[ref := e]> h] for handles are [deref] and [assign]. *)
#[global] Instance handle_lookup : Lookup ElementRef Element (list Element) :=
  fun ref h => deref h ref.
#[global] Instance handle_insert : Insert ElementRef Element (list Element) :=
  assign.

(** Modelled from the spec: the alias [DestinationMap] is declared outside
    OSCClient.h.  The spec calls the registry an "ordered associative
    container, Destination -> Element ownership handle"; the calls
    [insert(std::make_pair(dest, ref))] and the range-for over
    [first]/[second] are those of [std::map<Destination, ElementRef>]
    ordered by [operator<].  The map is represented by its in-order
    sequence of entries. *)
Abbreviation DestinationMap := (list (Destination * ElementRef)).

(** Key equivalence of an ordered container: neither key is less. *)
Definition Destination_equiv (a b : Destination) : bool :=
  negb (Destination_lt a b) && negb (Destination_lt b a).

(** [std::map::insert]: the pair goes to its place in key order unless an
    equivalent key is present, in which case the map is left as it is. *)
Fixpoint map_insert (kv : Destination * ElementRef) (m : DestinationMap) : DestinationMap :=
  match m with
  | [] => [kv]
  | e :: rest =>
      if Destination_lt (fst kv) (fst e) then kv :: m
      else if Destination_lt (fst e) (fst kv) then e :: map_insert kv rest
      else m
  end.

(** One UDP datagram as handed to the socket: whether it went through
    [beginPacketMulticast] or [beginPacket], the remote end, and the bytes
    of the encoder buffer, kept as the messages that were encoded into it. *)
Record Datagram : Type := mkDatagram {
  dg_multicast : bool;
  dg_ip : string;
  dg_port : Z;
  dg_payload : list Message
}.

(** [class Client]: the encoder workspace, the scratch message and the
    local port. *)
Record Client : Type := mkClient {
  writer : list Message;
  msg : Message;
  local_port : Z
}.

(** The process: the element objects, the caller's storage, the number of
    [micros()] calls made so far, the [Manager] singleton (its client and
    its registry) and the datagrams sent, oldest first. *)
Record State : Type := mkState {
  heap : list Element;
  store : Store;
  ticks : nat;
  client : Client;
  dest_map : DestinationMap;
  wire : list Datagram
}.

Definition set_heap (h : list Element) (s : State) : State :=
  mkState h (store s) (ticks s) (client s) (dest_map s) (wire s).
Definition set_store (st : Store) (s : State) : State :=
  mkState (heap s) st (ticks s) (client s) (dest_map s) (wire s).
Definition set_ticks (n : nat) (s : State) : State :=
  mkState (heap s) (store s) n (client s) (dest_map s) (wire s).
Definition set_client (c : Client) (s : State) : State :=
  mkState (heap s) (store s) (ticks s) c (dest_map s) (wire s).
Definition set_dest_map (m : DestinationMap) (s : State) : State :=
  mkState (heap s) (store s) (ticks s) (client s) m (wire s).
Definition set_wire (w : list Datagram) (s : State) : State :=
  mkState (heap s) (store s) (ticks s) (client s) (dest_map s) w.

Definition set_writer (w : list Message) (c : Client) : Client :=
  mkClient w (msg c) (local_port c).
Definition set_msg (m : Message) (c : Client) : Client :=
  mkClient (writer c) m (local_port c).

(** [ElementRef(new ...)]: a fresh object, and the handle to it. *)
Definition alloc (e : Element) (s : State) : ElementRef * State :=
  (Some (length (heap s)), set_heap (heap s ++ [e]) s).

Section WithClock.

(** The free-running microsecond counter: [clock n] is what the [n]-th
    call of [micros()] reads, before truncation to 32 bits. *)
Variable clock : nat -> Z.

Definition micros (s : State) : Z * State :=
  (wrap32 (clock (ticks s)), set_ticks (S (ticks s)) s).

(** ** class Client *)

(** [void send(const String &ip, const uint16_t port)] and
    [void sendMulticast(const String &ip, const uint16_t port)]: one
    packet holding the encoder buffer. *)
Definition Client_send_buffer (multicast : bool) (ip : string) (port : Z) (s : State) : State :=
  set_wire (wire s ++ [mkDatagram multicast ip port (writer (client s))]) s.

(** [send(ip, port, Message& m)] and [sendMulticast(ip, port, Message& m)]:
    [writer.init().encode(m)], then the packet. *)
Definition Client_send_message (multicast : bool) (ip : string) (port : Z) (m : Message) (s : State) : State :=
  Client_send_buffer multicast ip port (set_client (set_writer [m] (client s)) s).

(** The common body of [send(const Destination&, ElementRef)] and
    [sendMulticast(const Destination&, ElementRef)]: [elem->init(msg,
    dest.addr)], [elem->encodeTo(msg)], then the message goes out. *)
Definition Client_send_element (multicast : bool) (dest : Destination) (elem : ElementRef) (s : State) : option State :=
  e ← heap s !! elem;
  let m0 := Message_init (addr dest) (msg (client s)) in
  let (m1, st1) := encodeTo e (store s) m0 in
  let s1 := set_client (set_msg m1 (client s)) (set_store st1 s) in
  Some (Client_send_message multicast (ip dest) (port dest) m1 s1).

Definition send (dest : Destination) (elem : ElementRef) (s : State) : option State :=
  Client_send_element false dest elem s.

Definition sendMulticast (dest : Destination) (elem : ElementRef) (s : State) : option State :=
  Client_send_element true dest elem s.

(** ** class Manager *)

(** The body of the loop of [post()] for one registry entry [mp]. *)
Definition post_entry (mp : Destination * ElementRef) (s : State) : option State :=
  e ← heap s !! mp.2;
  let (now, s1) := micros s in
  if next now (base e) then
    let (now', s2) := micros s1 in
    let s3 := set_heap (<[mp.2 := with_base (set_last_publish_us now') e]> (heap s2)) s2 in
    if is_multicast mp.1 then sendMulticast mp.1 mp.2 s3 else send mp.1 mp.2 s3
  else Some s1.

Fixpoint post_entries (entries : DestinationMap) (s : State) : option State :=
  match entries with
  | [] => Some s
  | mp :: rest => s' ← post_entry mp s; post_entries rest s'
  end.

(** [void post()] *)
Definition post (s : State) : option State :=
  post_entries (dest_map s) s.

End WithClock.

(** The value categories that the overloads of [make_element_ref] and
    [publish] tell apart. *)
Inductive PublishArg : Type :=
| ByRef (c : Cell)            (* [T& value]: a variable of the caller *)
| ByConstRef (c : Cell)       (* [const T& value] bound to a variable *)
| ByValue (v : OscArg)        (* [const T& value] bound to a temporary *)
| ByCString (p : Cell)        (* [const char* const value]: a character buffer *)
| ByCallable (g : Getter).    (* a callable, cast to [std::function<T()>] *)

(** The object that each overload of [make_element_ref] constructs; [st] is
    the caller's storage at the time of the call. *)
Definition make_element (st : Store) (a : PublishArg) : Element :=
  match a with
  | ByRef c => Value Base_init c
  | ByConstRef c => Const Base_init (Copy (st c))
  | ByValue v => Const Base_init (Copy v)
  | ByCString p => Const Base_init (CString p)
  | ByCallable g => Function Base_init g
  end.

Definition make_element_ref (a : PublishArg) (s : State) : ElementRef * State :=
  alloc (make_element (store s) a) s.

(** [make_element_ref(ElementTupleRef& t)] after the braced list
    [{make_element_ref(std::forward<Ts>(ts))...}], whose initialisers are
    evaluated left to right. *)
Definition make_tuple_ref (ts : list PublishArg) (s : State) : ElementRef * State :=
  alloc (Tuple Base_init (map (make_element (store s)) ts)) s.

Definition publish_impl (ip : string) (port : Z) (addr : string) (ref : ElementRef) (s : State) : ElementRef * State :=
  let dest := Destination_new ip port addr in
  (ref, set_dest_map (map_insert (dest, ref) (dest_map s)) s).

Definition publish_impl_multicast (ip : string) (port : Z) (addr : string) (ref : ElementRef) (s : State) : ElementRef * State :=
  let dest := mkDestination ip port addr true in
  (ref, set_dest_map (map_insert (dest, ref) (dest_map s)) s).

(** The single-value overloads of [publish], the one for
    [const char* const value] included. *)
Definition publish (ip : string) (port : Z) (addr : string) (value : PublishArg) (s : State) : ElementRef * State :=
  let (ref, s1) := make_element_ref value s in
  publish_impl ip port addr ref s1.

(** [publishMulticast] has the one overload, taking a
    [const char* const value]. *)
Definition publishMulticast (ip : string) (port : Z) (addr : string) (value : Cell) (s : State) : ElementRef * State :=
  let (ref, s1) := make_element_ref (ByCString value) s in
  publish_impl_multicast ip port addr ref s1.

(** The variadic overload [publish(ip, port, addr, Ts&&... ts)]. *)
Definition publish_variadic (ip : string) (port : Z) (addr : string) (ts : list PublishArg) (s : State) : ElementRef * State :=
  let (ref, s1) := make_tuple_ref ts s in
  publish_impl ip port addr ref s1.

(** Setters reached through a handle: [ref->setIntervalUsec(us)]. *)
Definition handle_setIntervalUsec (ref : ElementRef) (us : Z) (s : State) : option State :=
  e ← heap s !! ref;
  Some (set_heap (<[ref := with_base (setIntervalUsec us) e]> (heap s)) s).

(** The lookup of [std::map::operator[]]: the handle mapped to the key
    equivalent to [k], if there is one. *)
Fixpoint map_find (k : Destination) (m : DestinationMap) : option ElementRef :=
  match m with
  | [] => None
  | e :: rest => if Destination_equiv k e.1 then Some e.2 else map_find k rest
  end.

(** [getPublishElementRef]: [dest_map[dest]] returns the handle mapped to
    [dest]; when no key is equivalent to [dest], [operator[]] first inserts
    [dest] with a default-constructed handle, the null handle. *)
Definition getPublishElementRef (ip : string) (port : Z) (addr : string) (s : State) : ElementRef * State :=
  let dest := Destination_new ip port addr in
  match map_find dest (dest_map s) with
  | Some ref => (ref, s)
  | None => (None, set_dest_map (map_insert (dest, None) (dest_map s)) s)
  end.

(** A process in which nothing has been published yet. *)
Definition initial_state (st : Store) : State :=
  mkState [] st 0 (mkClient [] (mkMessage EmptyString []) 9) [] [].

(** ** Well-formed registries *)

Definition key_lt (a b : Destination * ElementRef) : Prop :=
  Destination_lt a.1 b.1 = true.

(** What [publish] and [publishMulticast] maintain: the entries are in key
    order, every handle owns an object (none is null), and no object is
    registered twice. *)
Record registry_wf (s : State) : Prop := {
  wf_sorted : StronglySorted key_lt (dest_map s);
  wf_alloc : Forall (fun mp : Destination * ElementRef => is_Some (heap s !! mp.2)) (dest_map s);
  wf_nodup : NoDup (map snd (dest_map s))
}.

(** ** Vocabulary of the statements *)

(** Equivalence induced by a comparison: neither side is less. *)
Definition incomparable (lt : Destination -> Destination -> bool) (a b : Destination) : Prop :=
  lt a b = false /\ lt b a = false.

Record strict_weak_order (lt : Destination -> Destination -> bool) : Prop := {
  swo_irreflexive : forall a, lt a a = false;
  swo_asymmetric : forall a b, lt a b = true -> lt b a = false;
  swo_transitive : forall a b c, lt a b = true -> lt b c = true -> lt a c = true;
  swo_incomparable_transitive :
    forall a b c, incomparable lt a b -> incomparable lt b c -> incomparable lt a c
}.

(** The lexicographic order on the triple (ip, port, addr). *)
Definition lex_lt (a b : Destination) : Prop :=
  String.ltb (ip a) (ip b) = true
  \/ (ip a = ip b /\ port a < port b)
  \/ (ip a = ip b /\ port a = port b /\ String.ltb (addr a) (addr b) = true).

Definition same_triple (a b : Destination) : Prop :=
  ip a = ip b /\ port a = port b /\ addr a = addr b.

(** The wraparound-safe elapsed-time test: the unsigned difference
    [now - last_publish_us] against the interval. *)
Definition elapsed_test (now : Z) (b : Base) : bool :=
  wrap32 (now - last_publish_us b) >=? interval_us b.

(** What the source behind one argument of [publish] yields when it is
    encoded: [st0] is the caller's storage at the time of the [publish]
    call, [st] the storage at the time of the send. *)
Definition source_value (st0 : Store) (a : PublishArg) (st : Store) : OscArg * Store :=
  match a with
  | ByRef c => (st c, st)
  | ByConstRef c => (st0 c, st)
  | ByValue v => (v, st)
  | ByCString p => (st p, st)
  | ByCallable g => g st
  end.

(** The values of the arguments [ts], taken one after the other in call
    order. *)
Fixpoint values_in_call_order (st0 : Store) (ts : list PublishArg) (st : Store) : list OscArg * Store :=
  match ts with
  | [] => ([], st)
  | a :: rest =>
      let (v, st1) := source_value st0 a st in
      let (vs, st2) := values_in_call_order st0 rest st1 in
      (v :: vs, st2)
  end.

(** Whether the entry [mp] is due when the clock is read for the [t]-th
    time and the elements are those of the heap [h]. *)
Definition due_at (clock : nat -> Z) (t : nat) (h : list Element)
    (mp : Destination * ElementRef) : bool :=
  match h !! mp.2 with
  | Some e => next (wrap32 (clock t)) (base e)
  | None => false
  end.

(** The datagram [dg] is the transmit of the entry [mp]: it took the
    multicast path iff the destination's flag is set, it goes to the
    destination's ip and port, and it carries one message for the
    destination's address. *)
Definition routed_to (dg : Datagram) (mp : Destination * ElementRef) : Prop :=
  dg_multicast dg = is_multicast mp.1
  /\ dg_ip dg = ip mp.1
  /\ dg_port dg = port mp.1
  /\ exists m, dg_payload dg = [m] /\ address m = addr mp.1.

(** The element [e] after [last_publish_us = now]. *)
Definition stamped (now : Z) (e : Element) : Element :=
  with_base (set_last_publish_us now) e.

(** Two processes that differ at most in heap cells outside [refs]. *)
Record agree_on (refs : list ElementRef) (s1 s2 : State) : Prop := {
  agree_store : store s1 = store s2;
  agree_ticks : ticks s1 = ticks s2;
  agree_client : client s1 = client s2;
  agree_dest_map : dest_map s1 = dest_map s2;
  agree_wire : wire s1 = wire s2;
  agree_heap : forall r, r ∈ refs -> heap s1 !! r = heap s2 !! r
}.

(** Caller storage used to exercise the statements: the character buffer
    at cell 1 holds "on", every other variable holds 0. *)
Definition demo_store : Store :=
  fun c => match c with 1%nat => ArgString "on" | _ => ArgInt32 0 end.

(** A process used to exercise the statements: a unicast publisher of the
    constant 42 and a multicast publisher of the C string at cell 1, both
    registered from the initial state. *)
Definition two_publishers : State :=
  let s0 := initial_state demo_store in
  let s1 := (publish "10.0.0.5" 9000 "/x" (ByValue (ArgInt32 42)) s0).2 in
  (publishMulticast "239.0.0.1" 9001 "/y" 1%nat s1).2.

(** The datagram [dg] goes to [ip]:[port] and carries one message for the
    OSC address [addr]. *)
Definition addressed_to (dg : Datagram) (ip : string) (port : Z) (addr : string) : Prop :=
  dg_ip dg = ip /\ dg_port dg = port
  /\ exists m, dg_payload dg = [m] /\ address m = addr.

(** The entries of a registry whose key is equivalent to [d]. *)
Definition slot_of (d : Destination) (m : DestinationMap) : DestinationMap :=
  List.filter (fun mp => Destination_equiv mp.1 d) m.

(** ** One-off sends of [Client] and [Manager] *)

(** [send(ip, port, Message& m, First&& first, Rest&&... rest)] down to
    [send(ip, port, Message& m)]: [m] is the client's scratch message; each
    step pushes the first remaining argument onto it, and with none left
    the message is encoded and sent. *)
Fixpoint Client_send_rest (ip : string) (port : Z) (rest : list OscArg) (s : State) : State :=
  match rest with
  | [] => Client_send_message false ip port (msg (client s)) s
  | first :: rest =>
      Client_send_rest ip port rest
        (set_client (set_msg (push first (msg (client s))) (client s)) s)
  end.

(** [send(ip, port, addr, rest...)]: [msg.init(addr)], then the arguments. *)
Definition Client_send (ip : string) (port : Z) (addr : string) (rest : list OscArg) (s : State) : State :=
  Client_send_rest ip port rest
    (set_client (set_msg (Message_init addr (msg (client s))) (client s)) s).

(** [Manager::send] hands over to its client. *)
Definition Manager_send (ip : string) (port : Z) (addr : string) (ts : list OscArg) (s : State) : State :=
  Client_send ip port addr ts s.

(** [Client::localPort(port)] and [Manager::localPort(port)] *)
Definition Manager_localPort (p : Z) (s : State) : State :=
  set_client (mkClient (writer (client s)) (msg (client s)) p) s.

(** ** Further vocabulary *)

(** The number of arguments an element stands for: one per element that
    is not a tuple. *)
Fixpoint leaf_count (e : Element) : nat :=
  match e with
  | Tuple _ ts =>
      (fix sum (ts : list Element) : nat :=
         match ts with
         | [] => 0%nat
         | t :: rest => (leaf_count t + sum rest)%nat
         end) ts
  | _ => 1%nat
  end.

(** No getter anywhere in the element. *)
Fixpoint getter_free (e : Element) : bool :=
  match e with
  | Function _ _ => false
  | Tuple _ ts =>
      (fix all (ts : list Element) : bool :=
         match ts with
         | [] => true
         | t :: rest => getter_free t && all rest
         end) ts
  | _ => true
  end.

(** The processes that the operations of the header produce from a
    process in which nothing has been published: registrations, a change
    of interval through a handle, one-off sends, a change of the local
    port, ticks, and the caller assigning to its own variables. *)
Inductive reachable : State -> Prop :=
| reach_initial (st : Store) :
    reachable (initial_state st)
| reach_publish (ip : string) (port : Z) (addr : string) (v : PublishArg) (s : State) :
    reachable s -> reachable (publish ip port addr v s).2
| reach_publishMulticast (ip : string) (port : Z) (addr : string) (v : Cell) (s : State) :
    reachable s -> reachable (publishMulticast ip port addr v s).2
| reach_publish_variadic (ip : string) (port : Z) (addr : string) (ts : list PublishArg) (s : State) :
    reachable s -> reachable (publish_variadic ip port addr ts s).2
| reach_setIntervalUsec (ref : ElementRef) (us : Z) (s s' : State) :
    reachable s -> handle_setIntervalUsec ref us s = Some s' -> reachable s'
| reach_send (ip : string) (port : Z) (addr : string) (ts : list OscArg) (s : State) :
    reachable s -> reachable (Manager_send ip port addr ts s)
| reach_localPort (p : Z) (s : State) :
    reachable s -> reachable (Manager_localPort p s)
| reach_post (clock : nat -> Z) (s s' : State) :
    reachable s -> post clock s = Some s' -> reachable s'
| reach_store (st : Store) (s : State) :
    reachable s -> reachable (set_store st s).

(** Whether an entry is due in a tick at clock value [now2] that follows a
    tick at clock value [now1]: an entry sent in the first tick is measured
    from [now1], any other from where it stood. *)
Definition due_in_second_tick (now1 now2 : Z) (h : list Element)
    (mp : Destination * ElementRef) : bool :=
  match h !! mp.2 with
  | Some e =>
      if next now1 (base e)
      then next now2 (set_last_publish_us now1 (base e))
      else next now2 (base e)
  | None => false
  end.

(** What an insertion of the key [d] with the handle [r] makes of the
    registry [m]: nothing if an entry for the triple of [d] is there, the
    one new entry in its place otherwise. *)
Definition inserted_if_free (d : Destination) (r : ElementRef) (m m' : DestinationMap) : Prop :=
  ((exists mp, mp ∈ m /\ same_triple mp.1 d) /\ m' = m)
  \/ ((forall mp, mp ∈ m -> ~ same_triple mp.1 d)
      /\ exists l1 l2, m = l1 ++ l2 /\ m' = l1 ++ (d, r) :: l2).

(** Two processes with the same elements, storage, clock reads and
    registry, whose sent datagrams are [wA] and [wB] followed by the same
    ones. *)
Record same_schedule (wA wB : list Datagram) (a b : State) : Prop := {
  same_heap : heap a = heap b;
  same_store : store a = store b;
  same_ticks : ticks a = ticks b;
  same_dest_map : dest_map a = dest_map b;
  same_sent : exists sent, wire a = wA ++ sent /\ wire b = wB ++ sent
}.

(** The entries of [l] picked by the mask [due], in order. *)
Fixpoint select {A : Type} (due : list bool) (l : list A) : list A :=
  match due, l with
  | b :: due', x :: l' => if b then x :: select due' l' else select due' l'
  | _, _ => []
  end.

(** The clock read at which [post()] tests entry number [i], when the
    first read of the call is number [t0] and [due] tells which entries
    were sent: one read for each entry before it and one more for each of
    them that was sent. *)
Definition check_tick (t0 : nat) (due : list bool) (i : nat) : nat :=
  (t0 + i + length (List.filter (fun b : bool => b) (take i due)))%nat.


(** * Properties *)

(** ** Strings under [strcmp] order *)

Lemma ascii_compare_refl (a : ascii) : Ascii.compare a a = Eq.
Proof. unfold Ascii.compare. apply N.compare_refl. Qed.

Lemma ascii_compare_lt_trans (a b c : ascii) :
  Ascii.compare a b = Lt -> Ascii.compare b c = Lt -> Ascii.compare a c = Lt.
Proof.
  unfold Ascii.compare. rewrite !N.compare_lt_iff. lia.
Qed.

Lemma string_compare_refl (s : string) : String.compare s s = Eq.
Proof.
  induction s as [|a s IH]; simpl; [reflexivity|].
  now rewrite ascii_compare_refl.
Qed.

Lemma string_compare_lt_trans (s1 s2 s3 : string) :
  String.compare s1 s2 = Lt -> String.compare s2 s3 = Lt -> String.compare s1 s3 = Lt.
Proof.
  revert s2 s3. induction s1 as [|a s1 IH]; intros [|b s2] [|c s3]; simpl;
    try congruence.
  destruct (Ascii.compare a b) eqn:Hab; try discriminate;
    destruct (Ascii.compare b c) eqn:Hbc; try discriminate; intros H1 H2.
  - apply Ascii.compare_eq_iff in Hab, Hbc. subst.
    rewrite ascii_compare_refl. eauto.
  - apply Ascii.compare_eq_iff in Hab. subst. now rewrite Hbc.
  - apply Ascii.compare_eq_iff in Hbc. subst. now rewrite Hab.
  - now rewrite (ascii_compare_lt_trans _ _ _ Hab Hbc).
Qed.

Lemma string_ltb_lt (s t : string) : String.ltb s t = true <-> String.compare s t = Lt.
Proof. unfold String.ltb. destruct (String.compare s t); split; congruence. Qed.

Lemma string_ltb_irrefl (s : string) : String.ltb s s = false.
Proof. unfold String.ltb. now rewrite string_compare_refl. Qed.

Lemma string_ltb_trans (s1 s2 s3 : string) :
  String.ltb s1 s2 = true -> String.ltb s2 s3 = true -> String.ltb s1 s3 = true.
Proof. rewrite !string_ltb_lt. apply string_compare_lt_trans. Qed.

Lemma string_ltb_asym (s t : string) : String.ltb s t = true -> String.ltb t s = false.
Proof.
  unfold String.ltb. rewrite (String.compare_antisym t s).
  destruct (String.compare s t); simpl; congruence.
Qed.

Lemma string_ltb_total (s t : string) :
  String.ltb s t = false -> String.ltb t s = false -> s = t.
Proof.
  unfold String.ltb. rewrite (String.compare_antisym t s).
  destruct (String.compare s t) eqn:H; simpl; try congruence.
  intros _ _. now apply String.compare_eq_iff.
Qed.

(** ** [Destination]: equality and order *)

Lemma Destination_lt_lex (a b : Destination) :
  Destination_lt a b = true <-> lex_lt a b.
Proof.
  unfold Destination_lt, lex_lt.
  destruct (String.eqb_spec (ip a) (ip b)) as [Hip|Hip]; simpl.
  - destruct (Z.eqb_spec (port a) (port b)) as [Hp|Hp]; simpl.
    + rewrite Hip, string_ltb_irrefl. split; [auto|].
      intros [H|[[_ H]|[_ [_ H]]]]; [discriminate|lia|exact H].
    + rewrite Hip, string_ltb_irrefl, Z.ltb_lt. split; [auto|].
      intros [H|[[_ H]|[_ [H _]]]]; [discriminate|lia|contradiction].
  - split; [auto|]. intros [H|[[H _]|[H _]]]; [exact H|contradiction..].
Qed.

Lemma Destination_lt_false (a b : Destination) :
  Destination_lt a b = false <-> ~ lex_lt a b.
Proof.
  rewrite <- Destination_lt_lex. destruct (Destination_lt a b); split; congruence.
Qed.

Lemma lex_lt_irrefl (a : Destination) : ~ lex_lt a a.
Proof.
  unfold lex_lt. rewrite !string_ltb_irrefl.
  intros [H|[[_ H]|[_ [_ H]]]]; [discriminate|lia|discriminate].
Qed.

Lemma lex_lt_trans (a b c : Destination) : lex_lt a b -> lex_lt b c -> lex_lt a c.
Proof.
  unfold lex_lt.
  intros [H1|[[E1 H1]|[E1 [P1 H1]]]] [H2|[[E2 H2]|[E2 [P2 H2]]]].
  - left. eapply string_ltb_trans; eauto.
  - left. congruence.
  - left. congruence.
  - left. congruence.
  - right; left. split; [congruence|lia].
  - right; left. split; [congruence|lia].
  - left. congruence.
  - right; left. split; [congruence|lia].
  - right; right. repeat split; try congruence. eapply string_ltb_trans; eauto.
Qed.

Lemma lex_incomparable_same_triple (a b : Destination) :
  ~ lex_lt a b -> ~ lex_lt b a -> same_triple a b.
Proof.
  unfold lex_lt, same_triple. intros Hab Hba.
  assert (Hip : ip a = ip b).
  { apply string_ltb_total.
    - destruct (String.ltb (ip a) (ip b)); [exfalso; auto | reflexivity].
    - destruct (String.ltb (ip b) (ip a)); [exfalso; auto | reflexivity]. }
  assert (Hp : port a = port b).
  { destruct (Z.lt_trichotomy (port a) (port b)) as [H|[H|H]]; [|exact H|].
    - exfalso. apply Hab. auto.
    - exfalso. apply Hba. auto. }
  repeat split; try assumption.
  apply string_ltb_total.
  - destruct (String.ltb (addr a) (addr b)); [exfalso; apply Hab; auto | reflexivity].
  - destruct (String.ltb (addr b) (addr a)); [exfalso; apply Hba; auto | reflexivity].
Qed.

Lemma same_triple_incomparable (a b : Destination) :
  same_triple a b -> ~ lex_lt a b /\ ~ lex_lt b a.
Proof.
  unfold same_triple, lex_lt. intros (Hip & Hp & Ha). rewrite Hip, Hp, Ha.
  rewrite !string_ltb_irrefl.
  split; intros [H|[[_ H]|[_ [_ H]]]]; try discriminate; lia.
Qed.

Lemma Destination_equiv_same_triple (a b : Destination) :
  Destination_equiv a b = true <-> same_triple a b.
Proof.
  unfold Destination_equiv. rewrite andb_true_iff, !negb_true_iff, !Destination_lt_false.
  split.
  - intros [H1 H2]. now apply lex_incomparable_same_triple.
  - apply same_triple_incomparable.
Qed.

Lemma same_triple_lt_l (a a' b : Destination) :
  same_triple a a' -> Destination_lt a b = Destination_lt a' b.
Proof.
  unfold same_triple, Destination_lt. intros (-> & -> & ->). reflexivity.
Qed.

Lemma same_triple_lt_r (a b b' : Destination) :
  same_triple b b' -> Destination_lt a b = Destination_lt a b'.
Proof.
  unfold same_triple, Destination_lt. intros (-> & -> & ->). reflexivity.
Qed.

(** C5: [d1 == d2] holds exactly when the four fields [ip], [port],
    [addr] and [is_multicast] agree pairwise, and [d1 != d2] is the
    negation of [d1 == d2]. *)
Theorem Destination_eq_all_fields (d1 d2 : Destination) :
  (Destination_eq d1 d2 = true <->
     ip d1 = ip d2 /\ port d1 = port d2 /\ addr d1 = addr d2
     /\ is_multicast d1 = is_multicast d2)
  /\ Destination_ne d1 d2 = negb (Destination_eq d1 d2).
Proof.
  split; [|reflexivity].
  unfold Destination_eq.
  rewrite !andb_true_iff, !String.eqb_eq, Z.eqb_eq, Bool.eqb_true_iff.
  tauto.
Qed.

Lemma Destination_lt_irrefl (a : Destination) : Destination_lt a a = false.
Proof. apply Destination_lt_false, lex_lt_irrefl. Qed.

Lemma Destination_lt_trans (a b c : Destination) :
  Destination_lt a b = true -> Destination_lt b c = true -> Destination_lt a c = true.
Proof. rewrite !Destination_lt_lex. apply lex_lt_trans. Qed.

Lemma Destination_lt_asym (a b : Destination) :
  Destination_lt a b = true -> Destination_lt b a = false.
Proof.
  intros Hab. destruct (Destination_lt b a) eqn:Hba; [|reflexivity].
  pose proof (Destination_lt_trans _ _ _ Hab Hba) as H.
  now rewrite Destination_lt_irrefl in H.
Qed.

Lemma incomparable_same_triple (a b : Destination) :
  incomparable Destination_lt a b <-> same_triple a b.
Proof.
  unfold incomparable. rewrite !Destination_lt_false. split.
  - intros [H1 H2]. now apply lex_incomparable_same_triple.
  - apply same_triple_incomparable.
Qed.

(** C6: [operator<] is a strict weak ordering, it is the lexicographic
    order on (ip, port, addr), and it does not look at [is_multicast]: the
    flags can be changed at will without changing the comparison, and two
    destinations that differ in the flag only are incomparable. *)
Theorem Destination_lt_strict_weak_order :
  strict_weak_order Destination_lt
  /\ (forall a b, Destination_lt a b = true <-> lex_lt a b)
  /\ (forall a b ma mb,
        Destination_lt (mkDestination (ip a) (port a) (addr a) ma)
                       (mkDestination (ip b) (port b) (addr b) mb)
        = Destination_lt a b)
  /\ (forall i p a m1 m2,
        Destination_lt (mkDestination i p a m1) (mkDestination i p a m2) = false
        /\ Destination_lt (mkDestination i p a m2) (mkDestination i p a m1) = false).
Proof.
  split; [|split; [|split]].
  - constructor.
    + apply Destination_lt_irrefl.
    + apply Destination_lt_asym.
    + apply Destination_lt_trans.
    + intros a b c. rewrite !incomparable_same_triple. unfold same_triple.
      intros (? & ? & ?) (? & ? & ?). repeat split; congruence.
  - apply Destination_lt_lex.
  - reflexivity.
  - intros i p a m1 m2.
    apply (incomparable_same_triple (mkDestination i p a m1) (mkDestination i p a m2)).
    repeat split.
Qed.

(** ** [Destination]: assignment *)

Lemma Destination_copy_assign_fields (this dest : Destination) :
  Destination_copy_assign this dest
  = mkDestination (ip dest) (port dest) (addr this) (is_multicast dest).
Proof. reflexivity. Qed.

Lemma Destination_eq_refl (d : Destination) : Destination_eq d d = true.
Proof.
  unfold Destination_eq.
  now rewrite !String.eqb_refl, Z.eqb_refl, Bool.eqb_reflx.
Qed.

Lemma Destination_move_assign_eq (this dest : Destination) :
  Destination_eq (Destination_move_assign this dest).1 dest = true.
Proof. destruct dest. apply Destination_eq_refl. Qed.

(** C4: copy assignment at two destinations with different addresses.
    The left operand keeps its own [addr], so the operands do not compare
    equal afterwards; move assignment of the same operands hands [addr]
    over too and makes the left operand equal to what the right operand
    was. *)
Theorem Destination_copy_assign_keeps_addr :
  let d1 := mkDestination "10.0.0.5" 9000 "/x" false in
  let d2 := mkDestination "10.0.0.7" 9001 "/y" true in
  Destination_copy_assign d1 d2 = mkDestination "10.0.0.7" 9001 "/x" true
  /\ Destination_eq (Destination_copy_assign d1 d2) d2 = false
  /\ Destination_eq (Destination_move_assign d1 d2).1 d2 = true.
Proof. repeat split. Qed.

(** ** [Base::next] *)

Lemma next_true_iff (now : Z) (b : Base) :
  next now b = true <-> wrap32 (last_publish_us b + interval_us b) <= now.
Proof. unfold next. rewrite Z.geb_le. reflexivity. Qed.

Lemma elapsed_test_true_iff (now : Z) (b : Base) :
  elapsed_test now b = true <-> interval_us b <= wrap32 (now - last_publish_us b).
Proof. unfold elapsed_test. rewrite Z.geb_le. reflexivity. Qed.

Lemma wrap32_small (z : Z) : 0 <= z < 2 ^ 32 -> wrap32 z = z.
Proof. intros H. unfold wrap32. now apply Z.mod_small. Qed.

Lemma wrap32_over (z : Z) : 2 ^ 32 <= z < 2 * 2 ^ 32 -> wrap32 z = z - 2 ^ 32.
Proof.
  intros H. unfold wrap32.
  symmetry. apply (Z.mod_unique z (2 ^ 32) 1 (z - 2 ^ 32)); lia.
Qed.

Lemma wrap32_under (z : Z) : - 2 ^ 32 <= z < 0 -> wrap32 z = z + 2 ^ 32.
Proof.
  intros H. unfold wrap32.
  symmetry. apply (Z.mod_unique z (2 ^ 32) (-1) (z + 2 ^ 32)); lia.
Qed.

Lemma wrap32_range (z : Z) : uint32 (wrap32 z).
Proof. unfold uint32, wrap32. apply Z.mod_pos_bound. lia. Qed.

(** C1, as the code has it: [next()] compares the clock with the 32-bit
    sum [last_publish_us + interval_us].  Its answer is that of the
    wraparound-safe elapsed-time test exactly in these cases: the sum does
    not overflow and the clock is at or past [last_publish_us], or has
    wrapped less than one interval short of a full turn; or the sum
    overflows and the clock has wrapped below [last_publish_us]. *)
Theorem next_agrees_with_elapsed_test (now : Z) (b : Base) :
  uint32 now -> uint32 (last_publish_us b) -> uint32 (interval_us b) ->
  (next now b = true <-> wrap32 (last_publish_us b + interval_us b) <= now)
  /\ (next now b = elapsed_test now b <->
        (last_publish_us b + interval_us b < 2 ^ 32
         /\ (last_publish_us b <= now
             \/ now + 2 ^ 32 < last_publish_us b + interval_us b))
        \/ (2 ^ 32 <= last_publish_us b + interval_us b
            /\ now < last_publish_us b)).
Proof.
  unfold uint32. intros Hn Hl Hi. split; [apply next_true_iff|].
  destruct b as [l i]; simpl in *.
  unfold next, elapsed_test; simpl.
  destruct (Z_lt_le_dec (l + i) (2 ^ 32)) as [Hs|Hs];
    destruct (Z_lt_le_dec now l) as [Hc|Hc].
  - rewrite (wrap32_small (l + i)), (wrap32_under (now - l)) by lia.
    destruct (Z.geb_spec now (l + i)), (Z.geb_spec (now - l + 2 ^ 32) i);
      split; intros; try reflexivity; try discriminate; lia.
  - rewrite (wrap32_small (l + i)), (wrap32_small (now - l)) by lia.
    destruct (Z.geb_spec now (l + i)), (Z.geb_spec (now - l) i);
      split; intros; try reflexivity; try discriminate; lia.
  - rewrite (wrap32_over (l + i)), (wrap32_under (now - l)) by lia.
    destruct (Z.geb_spec now (l + i - 2 ^ 32)), (Z.geb_spec (now - l + 2 ^ 32) i);
      split; intros; try reflexivity; try discriminate; lia.
  - rewrite (wrap32_over (l + i)), (wrap32_small (now - l)) by lia.
    destruct (Z.geb_spec now (l + i - 2 ^ 32)), (Z.geb_spec (now - l) i);
      split; intros; try reflexivity; try discriminate; lia.
Qed.

Lemma next_agrees_with_elapsed_test_witness :
  uint32 50000 /\ uint32 10000 /\ uint32 33333
  /\ (next 50000 (mkBase 10000 33333) = true <->
        wrap32 (last_publish_us (mkBase 10000 33333) + interval_us (mkBase 10000 33333)) <= 50000)
  /\ (next 50000 (mkBase 10000 33333) = elapsed_test 50000 (mkBase 10000 33333) <->
        (last_publish_us (mkBase 10000 33333) + interval_us (mkBase 10000 33333) < 2 ^ 32
         /\ (last_publish_us (mkBase 10000 33333) <= 50000
             \/ 50000 + 2 ^ 32 < last_publish_us (mkBase 10000 33333) + interval_us (mkBase 10000 33333)))
        \/ (2 ^ 32 <= last_publish_us (mkBase 10000 33333) + interval_us (mkBase 10000 33333)
            /\ 50000 < last_publish_us (mkBase 10000 33333))).
Proof.
  split; [unfold uint32; lia|]. split; [unfold uint32; lia|]. split; [unfold uint32; lia|].
  apply (next_agrees_with_elapsed_test 50000 (mkBase 10000 33333));
    unfold uint32; simpl; lia.
Defined.

(** C1, refuted as stated.  With [last_publish_us] six ticks below the top
    of the counter the sum wraps to a small number and [next()] is true
    although only 5 microseconds have elapsed; with the clock wrapped past
    zero and the sum not, [next()] is false although 301 microseconds have
    elapsed and the interval is 100. *)
Lemma next_not_wraparound_safe :
  (next 4294967295 (mkBase 4294967290 33333) = true
   /\ elapsed_test 4294967295 (mkBase 4294967290 33333) = false)
  /\ (next 5 (mkBase 4294967000 100) = false
      /\ elapsed_test 5 (mkBase 4294967000 100) = true).
Proof. repeat split. Qed.

(** ** Allocation and registration *)

Lemma handle_lookup_loc (h : list Element) (l : nat) :
  h !! Some l = h !! l.
Proof. reflexivity. Qed.

Lemma handle_lookup_null (h : list Element) :
  h !! (None : ElementRef) = None.
Proof. reflexivity. Qed.

Lemma handle_lookup_Some (h : list Element) (r : ElementRef) (e : Element) :
  h !! r = Some e -> exists l : nat, r = Some l /\ (l < length h)%nat /\ h !! l = Some e.
Proof.
  destruct r as [l|]; [|discriminate]. rewrite handle_lookup_loc. intros H.
  exists l. split; [reflexivity|]. split; [|exact H]. eapply lookup_lt_Some, H.
Qed.

Lemma handle_insert_eq (h : list Element) (r : ElementRef) (e : Element) :
  is_Some (h !! r) -> <[r := e]> h !! r = Some e.
Proof.
  intros [e0 He0]. apply handle_lookup_Some in He0 as (l & -> & Hl & _).
  rewrite handle_lookup_loc. now apply list_lookup_insert_eq.
Qed.

Lemma handle_insert_ne (h : list Element) (r r' : ElementRef) (e : Element) :
  r <> r' -> <[r := e]> h !! r' = h !! r'.
Proof.
  intros Hne. destruct r as [l|]; [|reflexivity].
  destruct r' as [l'|]; [|reflexivity].
  rewrite !handle_lookup_loc. apply list_lookup_insert_ne. congruence.
Qed.

Lemma handle_insert_length (h : list Element) (r : ElementRef) (e : Element) :
  length (<[r := e]> h) = length h.
Proof. destruct r as [l|]; [apply length_insert|reflexivity]. Qed.

Lemma handle_lookup_app (h k : list Element) (r : ElementRef) :
  is_Some (h !! r) -> (h ++ k) !! r = h !! r.
Proof.
  intros [e He]. apply handle_lookup_Some in He as (l & -> & Hl & _).
  rewrite !handle_lookup_loc. now apply lookup_app_l.
Qed.

Lemma handle_lookup_fresh (h : list Element) (e : Element) :
  (h ++ [e]) !! Some (length h) = Some e.
Proof. rewrite handle_lookup_loc. now apply list_lookup_middle. Qed.

Lemma handle_lookup_past (h : list Element) :
  h !! Some (length h) = None.
Proof. rewrite handle_lookup_loc. now apply lookup_ge_None. Qed.

Lemma handle_lookup_same_length (h h' : list Element) (r : ElementRef) :
  length h' = length h -> is_Some (h !! r) -> is_Some (h' !! r).
Proof.
  intros Hlen [e He]. apply handle_lookup_Some in He as (l & -> & Hl & _).
  rewrite handle_lookup_loc. apply lookup_lt_is_Some_2. lia.
Qed.

Lemma alloc_lookup (e : Element) (s : State) :
  heap (alloc e s).2 !! (alloc e s).1 = Some e.
Proof. simpl. apply handle_lookup_fresh. Qed.

Lemma alloc_lookup_old (e : Element) (s : State) (r : ElementRef) :
  is_Some (heap s !! r) -> heap (alloc e s).2 !! r = heap s !! r.
Proof. intros H. simpl. now apply handle_lookup_app. Qed.

Lemma make_element_base (st : Store) (a : PublishArg) :
  base (make_element st a) = Base_init.
Proof. now destruct a. Qed.

Lemma publish_handle (ip : string) (port : Z) (addr : string) (value : PublishArg) (s : State) :
  (publish ip port addr value s).1 = Some (length (heap s))
  /\ heap (publish ip port addr value s).2 = heap s ++ [make_element (store s) value].
Proof. split; reflexivity. Qed.

Lemma publish_lookup (ip : string) (port : Z) (addr : string) (value : PublishArg) (s : State) :
  heap (publish ip port addr value s).2 !! (publish ip port addr value s).1
  = Some (make_element (store s) value).
Proof. destruct (publish_handle ip port addr value s) as [-> ->]. apply handle_lookup_fresh. Qed.

(** C2, as the code has it: the element that [publish] registers starts
    from [last_publish_us = 0] and [interval_us = 33333], whatever the
    clock reads.  With the clock at [t0] right after the registration,
    [next()] is false exactly when [t0 < 33333]; and once the clock has
    advanced by [d >= interval_us] without wrapping, [next()] is true. *)
Theorem publish_fresh_next (ip : string) (port : Z) (addr : string)
    (value : PublishArg) (s : State) (t0 d : Z) :
  uint32 t0 -> 0 <= d -> t0 + d < 2 ^ 32 ->
  exists e,
    heap (publish ip port addr value s).2 !! (publish ip port addr value s).1 = Some e
    /\ base e = Base_init
    /\ (next t0 (base e) = false <-> t0 < 33333)
    /\ (interval_us (base e) <= d -> next (wrap32 (t0 + d)) (base e) = true).
Proof.
  unfold uint32. intros Ht Hd Hw.
  exists (make_element (store s) value).
  rewrite publish_lookup, make_element_base.
  split; [reflexivity|]. split; [reflexivity|]. split.
  - unfold next, Base_init; simpl. rewrite wrap32_small by lia.
    destruct (Z.geb_spec t0 33333); split; intros; try discriminate; try reflexivity; lia.
  - simpl. intros Hi. apply next_true_iff. simpl.
    rewrite !wrap32_small by lia. lia.
Qed.

Lemma publish_fresh_next_witness :
  uint32 1000 /\ 0 <= 40000 /\ 1000 + 40000 < 2 ^ 32
  /\ exists e,
    heap (publish "10.0.0.5" 9000 "/x" (ByValue (ArgInt32 42)) (initial_state (fun _ => ArgInt32 0))).2
      !! (publish "10.0.0.5" 9000 "/x" (ByValue (ArgInt32 42)) (initial_state (fun _ => ArgInt32 0))).1
      = Some e
    /\ base e = Base_init
    /\ (next 1000 (base e) = false <-> 1000 < 33333)
    /\ (interval_us (base e) <= 40000 -> next (wrap32 (1000 + 40000)) (base e) = true).
Proof.
  split; [unfold uint32; lia|]. split; [lia|]. split; [lia|].
  apply (publish_fresh_next "10.0.0.5" 9000 "/x" (ByValue (ArgInt32 42))
           (initial_state (fun _ => ArgInt32 0)) 1000 40000);
    unfold uint32; lia.
Defined.

(** C2, refuted as stated.  An element published while the clock reads one
    second is due at once; and one published 7296 microseconds before the
    counter wraps is not due 40000 microseconds later. *)
Lemma publish_fresh_next_not_relative :
  let p := publish "10.0.0.5" 9000 "/x" (ByValue (ArgInt32 42))
             (initial_state (fun _ => ArgInt32 0)) in
  (next 1000000 <$> (base <$> heap p.2 !! p.1)) = Some true
  /\ wrap32 (4294960000 + 40000) = 32704
  /\ (next (wrap32 (4294960000 + 40000)) <$> (base <$> heap p.2 !! p.1)) = Some false.
Proof. repeat split. Qed.

(** ** Encoding *)

Lemma encodeTo_Tuple (b : Base) (ts : list Element) (st : Store) (m : Message) :
  encodeTo (Tuple b ts) st m = encode_each ts st m.
Proof.
  simpl. revert st m. induction ts as [|t ts IH]; intros st m; simpl; [reflexivity|].
  destruct (encodeTo t st m) as [m' st']. apply IH.
Qed.

Lemma encode_each_app (ts1 ts2 : list Element) (st : Store) (m : Message) :
  encode_each (ts1 ++ ts2) st m
  = encode_each ts2 (encode_each ts1 st m).2 (encode_each ts1 st m).1.
Proof.
  revert st m. induction ts1 as [|t ts1 IH]; intros st m; simpl; [reflexivity|].
  destruct (encodeTo t st m) as [m' st']. apply IH.
Qed.

(** Induction over elements that reaches the children of a tuple. *)
Lemma Element_nested_ind (P : Element -> Prop)
    (HV : forall b t, P (Value b t)) (HC : forall b t, P (Const b t))
    (HF : forall b g, P (Function b g))
    (HT : forall b ts, Forall P ts -> P (Tuple b ts)) :
  forall e, P e.
Proof.
  fix ind 1. intros [b t|b t|b g|b ts].
  - apply HV.
  - apply HC.
  - apply HF.
  - apply HT. induction ts as [|x r IHr]; constructor; [apply ind | exact IHr].
Qed.

Lemma encodeTo_address (e : Element) (st : Store) (m : Message) :
  address (encodeTo e st m).1 = address m.
Proof.
  revert st m.
  induction e as [b t|b t|b g|b ts IH] using Element_nested_ind; intros st m.
  - reflexivity.
  - reflexivity.
  - simpl. destruct (g st). reflexivity.
  - rewrite encodeTo_Tuple. revert st m.
    induction IH as [|t ts Ht _ IHts]; intros st m; simpl; [reflexivity|].
    specialize (Ht st m). destruct (encodeTo t st m) as [m' st']. simpl in Ht.
    rewrite IHts. exact Ht.
Qed.

Lemma encodeTo_make_element (st0 : Store) (a : PublishArg) (st : Store) (m : Message) :
  encodeTo (make_element st0 a) st m
  = (push (source_value st0 a st).1 m, (source_value st0 a st).2).
Proof. destruct a as [c|c|v|p|g]; simpl; try reflexivity. now destruct (g st). Qed.

Lemma encode_each_make_element (st0 : Store) (ts : list PublishArg) (st : Store) (m : Message) :
  encode_each (map (make_element st0) ts) st m
  = (mkMessage (address m) (args m ++ (values_in_call_order st0 ts st).1),
     (values_in_call_order st0 ts st).2).
Proof.
  revert st m. induction ts as [|a ts IH]; intros st m.
  - simpl. rewrite app_nil_r. now destruct m.
  - cbn [map encode_each values_in_call_order].
    rewrite encodeTo_make_element.
    destruct (source_value st0 a st) as [v st1]. cbn [fst snd].
    rewrite IH. destruct (values_in_call_order st0 ts st1) as [vs st2].
    cbn [fst snd push address args]. now rewrite <- app_assoc.
Qed.

Lemma values_in_call_order_length (st0 : Store) (ts : list PublishArg) (st : Store) :
  length (values_in_call_order st0 ts st).1 = length ts.
Proof.
  revert st. induction ts as [|a ts IH]; intros st; simpl; [reflexivity|].
  destruct (source_value st0 a st) as [v st1]. specialize (IH st1).
  destruct (values_in_call_order st0 ts st1) as [vs st2]. simpl in *. now rewrite IH.
Qed.

Lemma values_in_call_order_ByValue (st0 : Store) (vs : list OscArg) (st : Store) :
  values_in_call_order st0 (map ByValue vs) st = (vs, st).
Proof.
  induction vs as [|v vs IH]; simpl; [reflexivity|]. now rewrite IH.
Qed.

(** C7: the variadic [publish] returns a handle to a [Tuple] whose
    children are the elements of the arguments in call order; encoding the
    tuple appends to the one message the value of each child in that
    order, one argument per child; for plain values [vs] the arguments
    appended are [vs], and the message sent for the values 1, 2, 3 has the
    payload [1, 2, 3]. *)
Theorem publish_variadic_tuple_order (ip : string) (port : Z) (addr : string)
    (ts : list PublishArg) (s : State) :
  let p := publish_variadic ip port addr ts s in
  let tuple := Tuple Base_init (map (make_element (store s)) ts) in
  heap p.2 !! p.1 = Some tuple
  /\ (forall st m,
        encodeTo tuple st m
        = (mkMessage (address m) (args m ++ (values_in_call_order (store s) ts st).1),
           (values_in_call_order (store s) ts st).2))
  /\ (forall st, length (values_in_call_order (store s) ts st).1 = length ts)
  /\ (forall vs st, (values_in_call_order (store s) (map ByValue vs) st).1 = vs)
  /\ (encodeTo (Tuple Base_init
                  (map (make_element (store s))
                     [ByValue (ArgInt32 1); ByValue (ArgInt32 2); ByValue (ArgInt32 3)]))
        (store s) (Message_init addr (msg (client s)))).1
     = mkMessage addr [ArgInt32 1; ArgInt32 2; ArgInt32 3].
Proof.
  cbv zeta. split; [|split; [|split; [|split]]].
  - unfold publish_variadic, make_tuple_ref, publish_impl. simpl.
    now apply list_lookup_middle.
  - intros st m. rewrite encodeTo_Tuple. apply encode_each_make_element.
  - intros st. apply values_in_call_order_length.
  - intros vs st. now rewrite values_in_call_order_ByValue.
  - reflexivity.
Qed.

Lemma store_set_same (c : Cell) (v : OscArg) (st : Store) : store_set c v st c = v.
Proof. unfold store_set. now rewrite Nat.eqb_refl. Qed.

(** C8, as the code has it: an element made from a getter calls the
    getter at every [encodeTo], so the value pushed is the one the getter
    yields on the storage of that moment: after the variable read by the
    getter changes from [v1] to [v2], the second encode pushes [v2].  An
    element made as a constant from a value pushes the copy made when it
    was made: after the variable it was copied from changes from [v1] to
    [v2], the second encode still pushes [v1].  An element made as a
    constant from a C string has copied the pointer only: after the
    character buffer changes from [v1] to [v2], the second encode pushes
    [v2]. *)
Theorem getter_fresh_const_snapshot (c : Cell) (v1 v2 : OscArg) (st : Store) (m1 m2 : Message) :
  let st1 := store_set c v1 st in
  let st2 := store_set c v2 st1 in
  (forall (b : Base) (g : Getter) (st' : Store) (m : Message),
     encodeTo (Function b g) st' m = (push (g st').1 m, (g st').2))
  /\ (let e := make_element st1 (ByCallable (read_cell c)) in
      (encodeTo e st1 m1).1 = push v1 m1 /\ (encodeTo e st2 m2).1 = push v2 m2)
  /\ (let e := make_element st1 (ByConstRef c) in
      (encodeTo e st1 m1).1 = push v1 m1 /\ (encodeTo e st2 m2).1 = push v1 m2)
  /\ (let e := make_element st1 (ByValue v1) in
      (encodeTo e st1 m1).1 = push v1 m1 /\ (encodeTo e st2 m2).1 = push v1 m2)
  /\ (forall (b : Base) (t : OscArg) (st' : Store) (m : Message),
        encodeTo (Const b (Copy t)) st' m = (push t m, st'))
  /\ (let e := make_element st1 (ByCString c) in
      (encodeTo e st1 m1).1 = push v1 m1 /\ (encodeTo e st2 m2).1 = push v2 m2)
  /\ (forall (b : Base) (p : Cell) (st' : Store) (m : Message),
        encodeTo (Const b (CString p)) st' m = (push (st' p) m, st')).
Proof.
  cbv zeta. repeat apply conj.
  - intros b g st' m. simpl. now destruct (g st').
  - simpl. unfold read_cell. simpl. now rewrite !store_set_same.
  - simpl. unfold read_cell. simpl. now rewrite !store_set_same.
  - simpl. now rewrite !store_set_same.
  - simpl. now rewrite !store_set_same.
  - reflexivity.
  - reflexivity.
  - reflexivity.
  - simpl. now rewrite !store_set_same.
  - simpl. now rewrite !store_set_same.
  - reflexivity.
Qed.

(** C8, refuted as stated.  The constant that [publishMulticast] makes
    from the character buffer at cell 1 encodes "on" while the buffer
    holds "on" and "XY" once the caller has overwritten the buffer; and
    the datagram of the next tick carries "XY". *)
Lemma const_cstring_follows_buffer :
  let e := make_element demo_store (ByCString 1%nat) in
  let st' := store_set 1%nat (ArgString "XY") demo_store in
  (encodeTo e demo_store (mkMessage "/y" [])).1 = mkMessage "/y" [ArgString "on"]
  /\ (encodeTo e st' (mkMessage "/y" [])).1 = mkMessage "/y" [ArgString "XY"]
  /\ (wire <$> post (fun _ => 50000) (set_store st' two_publishers))
     = Some [mkDatagram false "10.0.0.5" 9000 [mkMessage "/x" [ArgInt32 42]];
             mkDatagram true "239.0.0.1" 9001 [mkMessage "/y" [ArgString "XY"]]].
Proof. repeat split. Qed.

(** ** One iteration of [post] *)

Section PostEntry.

Variable clock : nat -> Z.

Lemma post_entry_idle (mp : Destination * ElementRef) (s : State) (e : Element) :
  heap s !! mp.2 = Some e ->
  next (wrap32 (clock (ticks s))) (base e) = false ->
  post_entry clock mp s = Some (set_ticks (S (ticks s)) s).
Proof.
  intros He Hn. unfold post_entry. rewrite He. simpl. now rewrite Hn.
Qed.

Lemma post_entry_due (mp : Destination * ElementRef) (s : State) (e : Element) :
  heap s !! mp.2 = Some e ->
  next (wrap32 (clock (ticks s))) (base e) = true ->
  let e' := stamped (wrap32 (clock (S (ticks s)))) e in
  let enc := encodeTo e' (store s) (Message_init (addr mp.1) (msg (client s))) in
  post_entry clock mp s
  = Some (mkState (<[mp.2 := e']> (heap s)) enc.2 (S (S (ticks s)))
            (mkClient [enc.1] enc.1 (local_port (client s))) (dest_map s)
            (wire s ++ [mkDatagram (is_multicast mp.1) (ip mp.1) (port mp.1) [enc.1]])).
Proof.
  intros He Hn. cbv zeta. unfold post_entry. rewrite He. simpl. rewrite Hn.
  unfold sendMulticast, send, Client_send_element. cbn [heap set_heap set_ticks].
  rewrite handle_insert_eq by (now exists e). simpl. unfold stamped.
  destruct (encodeTo _ (store s) _) as [m1 st1].
  now destruct (is_multicast mp.1).
Qed.

End PostEntry.

(** ** The loop of [post] *)

Lemma elem_of_map_snd (mp : Destination * ElementRef) (l : DestinationMap) :
  mp ∈ l -> mp.2 ∈ map snd l.
Proof. rewrite !list_elem_of_In. apply in_map. Qed.

Lemma routed_to_datagram (d : Destination) (r : ElementRef) (e : Element) (st : Store) (m : Message) :
  routed_to (mkDatagram (is_multicast d) (ip d) (port d) [(encodeTo e st (Message_init (addr d) m)).1])
    (d, r).
Proof.
  repeat split. eexists. split; [reflexivity|]. now rewrite encodeTo_address.
Qed.

Section PostLoop.

Variable clock : nat -> Z.

(** The loop over entries whose due-ness [D] does not change while the
    loop runs. *)
Lemma post_entries_settled (D : Destination * ElementRef -> bool) (entries : DestinationMap) :
  forall s,
  NoDup (map snd entries) ->
  (forall mp, mp ∈ entries ->
     exists e, heap s !! mp.2 = Some e
       /\ forall t, (ticks s <= t < ticks s + 2 * length entries)%nat ->
            next (wrap32 (clock t)) (base e) = D mp) ->
  exists s' sent,
    post_entries clock entries s = Some s'
    /\ wire s' = wire s ++ sent
    /\ Forall2 routed_to sent (List.filter D entries)
    /\ dest_map s' = dest_map s
    /\ (ticks s <= ticks s' <= ticks s + 2 * length entries)%nat
    /\ (forall r, r ∉ map snd entries -> heap s' !! r = heap s !! r)
    /\ (forall mp e, mp ∈ entries -> heap s !! mp.2 = Some e ->
          if D mp
          then exists t, (ticks s <= t < ticks s')%nat
                 /\ heap s' !! mp.2 = Some (stamped (wrap32 (clock t)) e)
          else heap s' !! mp.2 = Some e).
Proof.
  induction entries as [|mp rest IH]; intros s Hnd Hall.
  - exists s, []. simpl. rewrite app_nil_r.
    repeat split; try constructor; try lia.
    intros mp e Hin. now apply elem_of_nil in Hin.
  - simpl in Hnd. apply NoDup_cons in Hnd as [Hnotin Hnd].
    destruct (Hall mp) as (e & He & Hdue); [left|].
    pose proof (Hdue (ticks s) ltac:(simpl; lia)) as Hnow.
    assert (Hrest : forall s1 k,
               (ticks s1 = ticks s + k)%nat -> (1 <= k <= 2)%nat ->
               (forall r, r <> mp.2 -> heap s1 !! r = heap s !! r) ->
               forall mp', mp' ∈ rest ->
                 exists e1, heap s1 !! mp'.2 = Some e1
                   /\ forall t, (ticks s1 <= t < ticks s1 + 2 * length rest)%nat ->
                        next (wrap32 (clock t)) (base e1) = D mp').
    { intros s1 k Hk Hk12 Hother mp' Hin'.
      destruct (Hall mp') as (e1 & He1 & Hd1); [now right|].
      exists e1. split.
      - rewrite Hother; [exact He1|].
        intros Heq. apply Hnotin. rewrite <- Heq. now apply elem_of_map_snd.
      - intros t Ht. apply Hd1. simpl. lia. }
    destruct (D mp) eqn:HD.
    + pose proof (post_entry_due clock mp s e He Hnow) as Hstep. cbv zeta in Hstep.
      set (e' := stamped (wrap32 (clock (S (ticks s)))) e) in *.
      set (enc := encodeTo e' (store s) (Message_init (addr mp.1) (msg (client s)))) in *.
      set (dg := mkDatagram (is_multicast mp.1) (ip mp.1) (port mp.1) [enc.1]) in *.
      set (s1 := mkState _ _ _ _ _ _) in Hstep.
      destruct (IH s1 Hnd) as (s' & sent & Hpost & Hwire & Hroute & Hmap & Hticks & Hframe & Helems).
      { apply (Hrest s1 2%nat); [simpl; lia|lia|].
        intros r Hr. simpl. apply handle_insert_ne. congruence. }
      exists s', (dg :: sent).
      assert (Hmine : heap s' !! mp.2 = Some e').
      { rewrite Hframe by exact Hnotin. simpl.
        apply handle_insert_eq. now exists e. }
      simpl in Hticks.
      split; [simpl; now rewrite Hstep|].
      split; [rewrite Hwire; simpl; now rewrite <- app_assoc|].
      split.
      { simpl. rewrite HD. constructor; [|exact Hroute].
        destruct mp as [d r]. apply routed_to_datagram. }
      split; [exact Hmap|].
      split; [simpl; lia|].
      split.
      { intros r Hr. apply not_elem_of_cons in Hr as [Hr1 Hr2].
        rewrite Hframe by exact Hr2. simpl. apply handle_insert_ne. congruence. }
      intros mp' e1 Hin' He1. apply elem_of_cons in Hin' as [->|Hin'].
      * rewrite HD. exists (S (ticks s)). split; [lia|].
        rewrite Hmine. rewrite He in He1. injection He1 as <-. reflexivity.
      * assert (Hne : mp.2 <> mp'.2).
        { intros Heq. apply Hnotin. rewrite Heq. now apply elem_of_map_snd. }
        specialize (Helems mp' e1 Hin').
        simpl in Helems. rewrite handle_insert_ne in Helems by exact Hne.
        specialize (Helems He1).
        destruct (D mp'); [|exact Helems].
        destruct Helems as (t & Ht & Hl). exists t. split; [lia|exact Hl].
    + pose proof (post_entry_idle clock mp s e He Hnow) as Hstep.
      set (s1 := set_ticks (S (ticks s)) s) in *.
      destruct (IH s1 Hnd) as (s' & sent & Hpost & Hwire & Hroute & Hmap & Hticks & Hframe & Helems).
      { apply (Hrest s1 1%nat); [simpl; lia|lia|]. reflexivity. }
      exists s', sent. simpl in Hticks.
      split; [simpl; now rewrite Hstep|].
      split; [exact Hwire|].
      split; [simpl; now rewrite HD|].
      split; [exact Hmap|].
      split; [simpl; lia|].
      split.
      { intros r Hr. apply not_elem_of_cons in Hr as [Hr1 Hr2]. now apply Hframe. }
      intros mp' e1 Hin' He1. apply elem_of_cons in Hin' as [->|Hin'].
      * rewrite HD. rewrite Hframe by exact Hnotin. exact He1.
      * specialize (Helems mp' e1 Hin' He1).
        destruct (D mp'); [|exact Helems].
        destruct Helems as (t & Ht & Hl). exists t. split; [simpl in Ht; lia|exact Hl].
Qed.

End PostLoop.

Lemma filter_none {A : Type} (f : A -> bool) (l : list A) :
  (forall x, x ∈ l -> f x = false) -> List.filter f l = [].
Proof.
  induction l as [|x l IH]; intros H; simpl; [reflexivity|].
  rewrite (H x) by left. apply IH. intros y Hy. apply H. now right.
Qed.

Lemma registry_wf_lookup (s : State) (mp : Destination * ElementRef) :
  registry_wf s -> mp ∈ dest_map s -> exists e, heap s !! mp.2 = Some e.
Proof.
  intros Hwf Hin. pose proof (wf_alloc s Hwf) as Hall.
  rewrite List.Forall_forall in Hall. apply list_elem_of_In, Hall in Hin.
  destruct Hin as [e He]. now exists e.
Qed.

(** ** The registry as an ordered map *)

Lemma map_insert_cases (kv : Destination * ElementRef) (m : DestinationMap) :
  map_insert kv m = m
  \/ exists l1 l2, m = l1 ++ l2 /\ map_insert kv m = l1 ++ kv :: l2.
Proof.
  induction m as [|e rest IH]; simpl.
  - right. now exists [], [].
  - destruct (Destination_lt kv.1 e.1).
    + right. now exists [], (e :: rest).
    + destruct (Destination_lt e.1 kv.1); [|now left].
      destruct IH as [->|(l1 & l2 & -> & ->)]; [now left|].
      right. now exists (e :: l1), l2.
Qed.

Lemma map_insert_absent (kv : Destination * ElementRef) (m : DestinationMap) :
  (forall e, e ∈ m -> ~ same_triple e.1 kv.1) ->
  exists l1 l2, m = l1 ++ l2 /\ map_insert kv m = l1 ++ kv :: l2.
Proof.
  induction m as [|e rest IH]; intros Hno; simpl.
  - now exists [], [].
  - destruct (Destination_lt kv.1 e.1) eqn:H1.
    + now exists [], (e :: rest).
    + destruct (Destination_lt e.1 kv.1) eqn:H2.
      * destruct IH as (l1 & l2 & -> & ->).
        { intros e' He'. apply Hno. now right. }
        now exists (e :: l1), l2.
      * exfalso. apply (Hno e); [left|].
        now apply incomparable_same_triple.
Qed.

Lemma map_insert_present (kv : Destination * ElementRef) (m : DestinationMap) :
  StronglySorted key_lt m ->
  (exists e, e ∈ m /\ same_triple e.1 kv.1) ->
  map_insert kv m = m.
Proof.
  induction m as [|e rest IH]; intros Hs (e' & Hin & Hsame).
  - now apply elem_of_nil in Hin.
  - apply StronglySorted_inv in Hs as [Hs Hlt]. simpl.
    apply elem_of_cons in Hin as [->|Hin].
    + apply incomparable_same_triple in Hsame as [H1 H2]. now rewrite H2, H1.
    + rewrite List.Forall_forall in Hlt.
      pose proof (Hlt e' (proj1 (list_elem_of_In _ _) Hin)) as Hee'.
      unfold key_lt in Hee'.
      rewrite (same_triple_lt_r _ _ _ Hsame) in Hee'.
      rewrite (Destination_lt_asym _ _ Hee'), Hee'.
      f_equal. apply IH; [exact Hs|]. now exists e'.
Qed.

Lemma elem_of_map_insert (kv x : Destination * ElementRef) (m : DestinationMap) :
  x ∈ map_insert kv m -> x = kv \/ x ∈ m.
Proof.
  destruct (map_insert_cases kv m) as [->|(l1 & l2 & -> & ->)]; [now right|].
  rewrite !elem_of_app, elem_of_cons. tauto.
Qed.

Lemma map_insert_sorted (kv : Destination * ElementRef) (m : DestinationMap) :
  StronglySorted key_lt m -> StronglySorted key_lt (map_insert kv m).
Proof.
  induction m as [|e rest IH]; intros Hs; simpl.
  - repeat constructor.
  - pose proof Hs as Hs0. apply StronglySorted_inv in Hs as [Hs Hlt].
    destruct (Destination_lt kv.1 e.1) eqn:H1.
    + constructor; [exact Hs0|]. constructor; [exact H1|].
      rewrite List.Forall_forall in *. intros x Hx.
      unfold key_lt. eapply Destination_lt_trans; [exact H1|]. now apply Hlt.
    + destruct (Destination_lt e.1 kv.1) eqn:H2; [|exact Hs0].
      constructor; [now apply IH|].
      rewrite List.Forall_forall in *. intros x Hx.
      apply list_elem_of_In, elem_of_map_insert in Hx as [->|Hx]; [exact H2|].
      now apply Hlt, list_elem_of_In.
Qed.

(** A fresh object registered under [d]: the step shared by every
    [publish] overload. *)
Lemma register_fresh_wf (d : Destination) (e : Element) (s : State) :
  registry_wf s ->
  registry_wf (set_dest_map (map_insert (d, Some (length (heap s))) (dest_map s))
                 (set_heap (heap s ++ [e]) s)).
Proof.
  intros [Hs Ha Hn].
  assert (Hfresh : forall l : DestinationMap,
             (forall x, In x l -> is_Some (heap s !! x.2)) ->
             Some (length (heap s)) ∉ map snd l).
  { intros l Hl Hin. apply list_elem_of_In, in_map_iff in Hin as (x & Hx & Hin).
    apply Hl in Hin. rewrite Hx, handle_lookup_past in Hin. now destruct Hin. }
  constructor; simpl.
  - now apply map_insert_sorted.
  - rewrite List.Forall_forall in *. intros x Hx.
    apply list_elem_of_In, elem_of_map_insert in Hx as [->|Hx].
    + simpl. rewrite handle_lookup_fresh. now eexists.
    + apply list_elem_of_In, Ha in Hx. rewrite handle_lookup_app by exact Hx. exact Hx.
  - destruct (map_insert_cases (d, Some (length (heap s))) (dest_map s))
      as [->|(l1 & l2 & Hm & ->)]; [exact Hn|].
    rewrite Hm in Hn, Ha. rewrite map_app in *. simpl.
    apply NoDup_app in Hn as (Hn1 & Hn12 & Hn2).
    apply List.Forall_app in Ha as [Ha1 Ha2].
    rewrite List.Forall_forall in Ha1, Ha2.
    apply NoDup_app. split; [exact Hn1|]. split.
    + intros x Hx Hx'. apply elem_of_cons in Hx' as [->|Hx'].
      * now apply (Hfresh l1 Ha1).
      * now apply (Hn12 x).
    + apply NoDup_cons. split; [now apply Hfresh|exact Hn2].
Qed.

Lemma registry_wf_same_registry (s s' : State) :
  dest_map s' = dest_map s -> length (heap s') = length (heap s) ->
  registry_wf s -> registry_wf s'.
Proof.
  intros Hm Hl [Hs Ha Hn]. constructor; rewrite Hm; try assumption.
  revert Ha. apply List.Forall_impl. intros mp. now apply handle_lookup_same_length.
Qed.

Lemma initial_state_wf (st : Store) : registry_wf (initial_state st).
Proof. constructor; simpl; constructor. Qed.

Lemma publish_wf (ip : string) (port : Z) (addr : string) (value : PublishArg) (s : State) :
  registry_wf s -> registry_wf (publish ip port addr value s).2.
Proof.
  intros H.
  exact (register_fresh_wf (Destination_new ip port addr) (make_element (store s) value) s H).
Qed.

Lemma publishMulticast_wf (ip : string) (port : Z) (addr : string) (value : Cell) (s : State) :
  registry_wf s -> registry_wf (publishMulticast ip port addr value s).2.
Proof.
  intros H.
  exact (register_fresh_wf (mkDestination ip port addr true)
           (make_element (store s) (ByCString value)) s H).
Qed.

Lemma publish_variadic_wf (ip : string) (port : Z) (addr : string) (ts : list PublishArg) (s : State) :
  registry_wf s -> registry_wf (publish_variadic ip port addr ts s).2.
Proof.
  intros H.
  exact (register_fresh_wf (Destination_new ip port addr)
           (Tuple Base_init (map (make_element (store s)) ts)) s H).
Qed.

Lemma two_publishers_wf : registry_wf two_publishers.
Proof. apply publishMulticast_wf, publish_wf, initial_state_wf. Qed.

(** ** A tick, entry by entry *)

Lemma check_tick_0 (t0 : nat) (due : list bool) : check_tick t0 due 0 = t0.
Proof. unfold check_tick. simpl. lia. Qed.

Lemma check_tick_cons (t0 : nat) (b : bool) (due : list bool) (i : nat) :
  check_tick t0 (b :: due) (S i) = check_tick (S (if b then S t0 else t0)) due i.
Proof. unfold check_tick. simpl. destruct b; simpl; lia. Qed.

Lemma check_tick_bounds (t0 : nat) (due : list bool) (i : nat) :
  (t0 + i <= check_tick t0 due i <= t0 + 2 * i)%nat.
Proof.
  unfold check_tick.
  pose proof (List.filter_length_le (fun b : bool => b) (take i due)) as H1.
  rewrite length_take in H1. lia.
Qed.

Lemma stamped_fields (now : Z) (e : Element) :
  last_publish_us (base (stamped now e)) = now
  /\ interval_us (base (stamped now e)) = interval_us (base e)
  /\ forall st m, encodeTo (stamped now e) st m = encodeTo e st m.
Proof. destruct e; repeat split. Qed.

Lemma lookup_elem_of_map_snd (l : DestinationMap) (i : nat) (mp : Destination * ElementRef) :
  l !! i = Some mp -> mp.2 ∈ map snd l.
Proof. intros H. apply elem_of_map_snd. eapply list_elem_of_lookup_2, H. Qed.

Section PostRun.

Variable clock : nat -> Z.

(** The loop, for any clock: [due] records entry by entry whether the
    entry was found due at the read at which it was tested. *)
Lemma post_entries_run (entries : DestinationMap) :
  forall s,
  NoDup (map snd entries) ->
  Forall (fun mp : Destination * ElementRef => is_Some (heap s !! mp.2)) entries ->
  exists s' due sent,
    post_entries clock entries s = Some s'
    /\ length due = length entries
    /\ wire s' = wire s ++ sent
    /\ Forall2 routed_to sent (select due entries)
    /\ dest_map s' = dest_map s
    /\ (forall r, r ∉ map snd entries -> heap s' !! r = heap s !! r)
    /\ (forall i mp e, entries !! i = Some mp -> heap s !! mp.2 = Some e ->
          let t := check_tick (ticks s) due i in
          due !! i = Some (next (wrap32 (clock t)) (base e))
          /\ exists e', heap s' !! mp.2 = Some e'
               /\ if next (wrap32 (clock t)) (base e)
                  then last_publish_us (base e') = wrap32 (clock (S t))
                       /\ interval_us (base e') = interval_us (base e)
                       /\ (forall st m, encodeTo e' st m = encodeTo e st m)
                  else e' = e).
Proof.
  induction entries as [|mp rest IH]; intros s Hnd Hall.
  - exists s, [], []. simpl. rewrite app_nil_r.
    split; [reflexivity|]. split; [reflexivity|]. split; [reflexivity|].
    split; [constructor|]. split; [reflexivity|]. split; [reflexivity|].
    intros i mp e Hi. now rewrite lookup_nil in Hi.
  - simpl in Hnd. apply NoDup_cons in Hnd as [Hnotin Hnd].
    apply List.Forall_cons_iff in Hall as [[e He] Hall].
    assert (Hother : forall (i : nat) (mp' : Destination * ElementRef),
               rest !! i = Some mp' -> mp.2 <> mp'.2).
    { intros i mp' Hi Heq. apply Hnotin. rewrite Heq.
      eapply lookup_elem_of_map_snd, Hi. }
    destruct (next (wrap32 (clock (ticks s))) (base e)) eqn:Hn.
    + pose proof (post_entry_due clock mp s e He Hn) as Hstep. cbv zeta in Hstep.
      set (e1 := stamped (wrap32 (clock (S (ticks s)))) e) in *.
      set (enc := encodeTo e1 (store s) (Message_init (addr mp.1) (msg (client s)))) in *.
      set (dg := mkDatagram (is_multicast mp.1) (ip mp.1) (port mp.1) [enc.1]) in *.
      set (s1 := mkState _ _ _ _ _ _) in Hstep.
      assert (Hheap1 : forall r, mp.2 <> r -> heap s1 !! r = heap s !! r).
      { intros r Hr. simpl. now apply handle_insert_ne. }
      destruct (IH s1 Hnd) as (s' & due & sent & Hpost & Hlen & Hwire & Hroute & Hmap & Hframe & Hidx).
      { rewrite List.Forall_forall in *. intros mp' Hin'.
        rewrite Hheap1; [now apply Hall|].
        intros Heq. apply Hnotin. rewrite Heq.
        now apply elem_of_map_snd, list_elem_of_In. }
      exists s', (true :: due), (dg :: sent).
      split; [simpl; now rewrite Hstep|].
      split; [simpl; now rewrite Hlen|].
      split; [rewrite Hwire; simpl; now rewrite <- app_assoc|].
      split.
      { simpl. constructor; [|exact Hroute]. destruct mp as [d r]. apply routed_to_datagram. }
      split; [exact Hmap|].
      split.
      { intros r Hr. apply not_elem_of_cons in Hr as [Hr1 Hr2].
        rewrite Hframe by exact Hr2. apply Hheap1. congruence. }
      intros [|i] mp0 e0 Hi He0; cbv zeta.
      * simpl in Hi. injection Hi as <-. rewrite He in He0. injection He0 as <-.
        rewrite check_tick_0, Hn. split; [reflexivity|].
        exists e1. split.
        -- rewrite Hframe by exact Hnotin. simpl. apply handle_insert_eq. now exists e.
        -- apply stamped_fields.
      * simpl in Hi. rewrite check_tick_cons.
        apply (Hidx i mp0 e0 Hi). rewrite Hheap1; [exact He0|]. eapply Hother, Hi.
    + pose proof (post_entry_idle clock mp s e He Hn) as Hstep.
      set (s1 := set_ticks (S (ticks s)) s) in *.
      destruct (IH s1 Hnd Hall) as (s' & due & sent & Hpost & Hlen & Hwire & Hroute & Hmap & Hframe & Hidx).
      exists s', (false :: due), sent.
      split; [simpl; now rewrite Hstep|].
      split; [simpl; now rewrite Hlen|].
      split; [exact Hwire|].
      split; [exact Hroute|].
      split; [exact Hmap|].
      split.
      { intros r Hr. apply not_elem_of_cons in Hr as [Hr1 Hr2]. now apply Hframe. }
      intros [|i] mp0 e0 Hi He0; cbv zeta.
      * simpl in Hi. injection Hi as <-. rewrite He in He0. injection He0 as <-.
        rewrite check_tick_0, Hn. split; [reflexivity|].
        exists e. split; [|reflexivity].
        rewrite Hframe by exact Hnotin. exact He.
      * simpl in Hi. rewrite check_tick_cons.
        apply (Hidx i mp0 e0 Hi). exact He0.
Qed.

End PostRun.








(** The tick on the process [two_publishers] with the clock at 50 ms: both
    entries are due, the unicast one goes out through [send], the
    multicast one through [sendMulticast]. *)
Example post_two_publishers :
  wire <$> post (fun _ => 50000) two_publishers
  = Some [mkDatagram false "10.0.0.5" 9000 [mkMessage "/x" [ArgInt32 42]];
          mkDatagram true "239.0.0.1" 9001 [mkMessage "/y" [ArgString "on"]]].
Proof. reflexivity. Qed.

(** The same tick with the clock at 1 ms: nothing is due, nothing is sent. *)
Example post_two_publishers_early :
  wire <$> post (fun _ => 1000) two_publishers = Some [].
Proof. reflexivity. Qed.

Section PostFrame.

Variable clock : nat -> Z.

(** [post] returns on every registry whose handles own objects, and each
    datagram it sends is the transmit of some entry. *)
Lemma post_entries_total (entries : DestinationMap) :
  forall s,
  Forall (fun mp : Destination * ElementRef => is_Some (heap s !! mp.2)) entries ->
  exists s' sent,
    post_entries clock entries s = Some s'
    /\ wire s' = wire s ++ sent
    /\ Forall (fun dg => exists mp, mp ∈ entries /\ routed_to dg mp) sent
    /\ length (heap s') = length (heap s)
    /\ dest_map s' = dest_map s.
Proof.
  induction entries as [|mp rest IH]; intros s Hall.
  - exists s, []. simpl. rewrite app_nil_r. repeat split. constructor.
  - apply List.Forall_cons_iff in Hall as [Hmp Hall].
    destruct Hmp as [e He].
    assert (Hweaken : forall sent : list Datagram,
               Forall (fun dg => exists mp', mp' ∈ rest /\ routed_to dg mp') sent ->
               Forall (fun dg => exists mp', mp' ∈ mp :: rest /\ routed_to dg mp') sent).
    { intros sent. apply List.Forall_impl. intros dg (mp' & Hin & Hr).
      exists mp'. split; [now right|exact Hr]. }
    destruct (next (wrap32 (clock (ticks s))) (base e)) eqn:Hn.
    + pose proof (post_entry_due clock mp s e He Hn) as Hstep. cbv zeta in Hstep.
      set (e' := stamped (wrap32 (clock (S (ticks s)))) e) in *.
      set (enc := encodeTo e' (store s) (Message_init (addr mp.1) (msg (client s)))) in *.
      set (dg := mkDatagram (is_multicast mp.1) (ip mp.1) (port mp.1) [enc.1]) in *.
      set (s1 := mkState _ _ _ _ _ _) in Hstep.
      destruct (IH s1) as (s' & sent & Hpost & Hwire & Hroute & Hlen & Hmap).
      { simpl. revert Hall. apply List.Forall_impl. intros mp'.
        apply handle_lookup_same_length, handle_insert_length. }
      exists s', (dg :: sent).
      split; [simpl; now rewrite Hstep|].
      split; [rewrite Hwire; simpl; now rewrite <- app_assoc|].
      split.
      { constructor; [|now apply Hweaken].
        exists mp. split; [left|]. destruct mp as [d r]. apply routed_to_datagram. }
      split; [rewrite Hlen; simpl; apply handle_insert_length|exact Hmap].
    + pose proof (post_entry_idle clock mp s e He Hn) as Hstep.
      destruct (IH (set_ticks (S (ticks s)) s) Hall)
        as (s' & sent & Hpost & Hwire & Hroute & Hlen & Hmap).
      exists s', sent.
      split; [simpl; now rewrite Hstep|].
      split; [exact Hwire|].
      split; [now apply Hweaken|].
      split; [exact Hlen|exact Hmap].
Qed.

Lemma post_wf (s : State) :
  registry_wf s -> exists s', post clock s = Some s' /\ registry_wf s'.
Proof.
  intros [Hs Ha Hn].
  destruct (post_entries_total (dest_map s) s Ha) as (s' & sent & Hpost & _ & _ & Hlen & Hmap).
  exists s'. split; [exact Hpost|].
  apply (registry_wf_same_registry s s' Hmap Hlen). now constructor.
Qed.

(** What one iteration does depends on the heap only through the object of
    its own entry. *)
Lemma post_entry_agree (refs : list ElementRef) (mp : Destination * ElementRef) (s1 s2 : State) :
  agree_on refs s1 s2 -> mp.2 ∈ refs ->
  option_Forall2 (agree_on refs) (post_entry clock mp s1) (post_entry clock mp s2).
Proof.
  intros [Hst Htk Hcl Hdm Hw Hh] Hin.
  pose proof (Hh mp.2 Hin) as Hmp.
  destruct (heap s2 !! mp.2) as [e|] eqn:He2.
  - destruct (next (wrap32 (clock (ticks s2))) (base e)) eqn:Hn.
    + rewrite (post_entry_due clock mp s2 e He2 Hn).
      rewrite <- Htk in Hn. rewrite (post_entry_due clock mp s1 e Hmp Hn).
      cbv zeta. rewrite Hst, Htk, Hcl, Hdm, Hw.
      constructor. constructor; simpl; try reflexivity.
      intros r Hr. destruct (decide (r = mp.2)) as [->|Hne].
      * rewrite !handle_insert_eq; [reflexivity|..]; eauto.
      * rewrite !handle_insert_ne by congruence. now apply Hh.
    + rewrite (post_entry_idle clock mp s2 e He2 Hn).
      rewrite <- Htk in Hn. rewrite (post_entry_idle clock mp s1 e Hmp Hn).
      constructor. constructor; simpl; auto.
  - unfold post_entry. rewrite Hmp, He2. constructor.
Qed.

Lemma post_entries_agree (refs : list ElementRef) (entries : DestinationMap) :
  forall s1 s2,
  agree_on refs s1 s2 ->
  (forall mp, mp ∈ entries -> mp.2 ∈ refs) ->
  option_Forall2 (agree_on refs) (post_entries clock entries s1) (post_entries clock entries s2).
Proof.
  induction entries as [|mp rest IH]; intros s1 s2 Hag Hsub; simpl.
  - now constructor.
  - destruct (post_entry_agree refs mp s1 s2 Hag) as [a b Hab|]; [apply Hsub; left| |].
    + simpl. apply IH; [exact Hab|]. intros mp' Hin'. apply Hsub. now right.
    + constructor.
Qed.

End PostFrame.

(** ** Publishing to a destination that is taken *)

Lemma registry_wf_ref_owned (s : State) (r : ElementRef) :
  registry_wf s -> r ∈ map snd (dest_map s) -> is_Some (heap s !! r).
Proof.
  intros Hwf Hin. pose proof (wf_alloc s Hwf) as Ha.
  rewrite List.Forall_forall in Ha.
  apply list_elem_of_In, in_map_iff in Hin as (x & <- & Hin). now apply Ha.
Qed.

Lemma registry_wf_fresh (s : State) :
  registry_wf s -> Some (length (heap s)) ∉ map snd (dest_map s).
Proof.
  intros Hwf Hin. apply (registry_wf_ref_owned s _ Hwf) in Hin.
  rewrite handle_lookup_past in Hin. now destruct Hin.
Qed.

(** C9: [publish] to a destination whose (ip, port, addr) is already in
    the registry.  The registry is left as it was and so are the objects
    it refers to; the handle returned owns a new object that no registry
    entry refers to; and whatever is written to that object through the
    handle, [post()] sends what it sends without the second [publish] and
    leaves the registered objects in the same state. *)
Theorem republish_keeps_registered_element (clock : nat -> Z)
    (ip : string) (port : Z) (addr : string) (value : PublishArg)
    (s : State) (mp : Destination * ElementRef) :
  registry_wf s ->
  mp ∈ dest_map s ->
  same_triple mp.1 (Destination_new ip port addr) ->
  let p := publish ip port addr value s in
  dest_map p.2 = dest_map s
  /\ (p.1 ∉ map snd (dest_map p.2))
  /\ heap p.2 !! p.1 = Some (make_element (store s) value)
  /\ (forall r, r ∈ map snd (dest_map s) -> heap p.2 !! r = heap s !! r)
  /\ (forall us,
        handle_setIntervalUsec p.1 us p.2
        = Some (set_heap
                  (<[p.1 := with_base (setIntervalUsec us) (make_element (store s) value)]>
                     (heap p.2)) p.2))
  /\ (forall e' : Element,
        exists s0 s1,
          post clock s = Some s0
          /\ post clock (set_heap (<[p.1 := e']> (heap p.2)) p.2) = Some s1
          /\ wire s1 = wire s0
          /\ (forall r, r ∈ map snd (dest_map s) -> heap s1 !! r = heap s0 !! r)).
Proof.
  intros Hwf Hin Hsame. cbv zeta.
  assert (Hmap : dest_map (publish ip port addr value s).2 = dest_map s).
  { simpl. apply map_insert_present; [apply Hwf|]. now exists mp. }
  split; [exact Hmap|].
  split; [rewrite Hmap; now apply registry_wf_fresh|].
  split; [apply publish_lookup|].
  split.
  { intros r Hr. simpl. apply handle_lookup_app. now apply registry_wf_ref_owned. }
  split.
  { intros us. unfold handle_setIntervalUsec. now rewrite publish_lookup. }
  intros e'.
  destruct (post_wf clock s Hwf) as (s0 & Hpost0 & _).
  set (s2 := set_heap (<[(publish ip port addr value s).1 := e']>
                         (heap (publish ip port addr value s).2))
               (publish ip port addr value s).2).
  assert (Hag : agree_on (map snd (dest_map s)) s2 s).
  { constructor; try reflexivity; [exact Hmap|].
    intros r Hr. pose proof (registry_wf_ref_owned s r Hwf Hr) as Hown. simpl.
    rewrite handle_insert_ne.
    - now apply handle_lookup_app.
    - intros Heq. rewrite <- Heq, handle_lookup_past in Hown. now destruct Hown. }
  assert (Hsub : forall mp', mp' ∈ dest_map s -> mp'.2 ∈ map snd (dest_map s)).
  { intros mp' Hin'. now apply elem_of_map_snd. }
  pose proof (post_entries_agree clock _ (dest_map s) s2 s Hag Hsub) as Hrun.
  assert (Hpost2 : post clock s2 = post_entries clock (dest_map s) s2).
  { unfold post. f_equal. exact Hmap. }
  unfold post in Hpost0. rewrite Hpost0 in Hrun. rewrite <- Hpost2 in Hrun.
  inversion Hrun as [s1 s0' Hag1 Heq1 Heq0|]; subst.
  exists s0, s1. split; [exact Hpost0|]. split; [reflexivity|].
  split; apply Hag1.
Qed.

Lemma republish_keeps_registered_element_witness :
  registry_wf two_publishers
  /\ (mkDestination "10.0.0.5" 9000 "/x" false, Some 0%nat) ∈ dest_map two_publishers
  /\ same_triple (mkDestination "10.0.0.5" 9000 "/x" false, Some 0%nat).1
       (Destination_new "10.0.0.5" 9000 "/x")
  /\ let p := publish "10.0.0.5" 9000 "/x" (ByValue (ArgInt32 7)) two_publishers in
     dest_map p.2 = dest_map two_publishers
     /\ (p.1 ∉ map snd (dest_map p.2))
     /\ heap p.2 !! p.1 = Some (make_element (store two_publishers) (ByValue (ArgInt32 7)))
     /\ (forall r, r ∈ map snd (dest_map two_publishers) ->
           heap p.2 !! r = heap two_publishers !! r)
     /\ (forall us,
           handle_setIntervalUsec p.1 us p.2
           = Some (set_heap
                     (<[p.1 := with_base (setIntervalUsec us)
                                 (make_element (store two_publishers) (ByValue (ArgInt32 7)))]>
                        (heap p.2)) p.2))
     /\ (forall e' : Element,
           exists s0 s1,
             post (fun _ => 50000) two_publishers = Some s0
             /\ post (fun _ => 50000) (set_heap (<[p.1 := e']> (heap p.2)) p.2) = Some s1
             /\ wire s1 = wire s0
             /\ (forall r, r ∈ map snd (dest_map two_publishers) ->
                   heap s1 !! r = heap s0 !! r)).
Proof.
  split; [apply two_publishers_wf|].
  split; [vm_compute; left|].
  split; [repeat split|].
  apply (republish_keeps_registered_element (fun _ => 50000) "10.0.0.5" 9000 "/x"
           (ByValue (ArgInt32 7)) two_publishers
           (mkDestination "10.0.0.5" 9000 "/x" false, Some 0%nat)).
  - apply two_publishers_wf.
  - vm_compute. left.
  - repeat split.
Defined.

(** The second [publish] to "/x" changes nothing in what goes out. *)
Example republish_two_publishers :
  wire <$> post (fun _ => 50000)
             (publish "10.0.0.5" 9000 "/x" (ByValue (ArgInt32 7)) two_publishers).2
  = wire <$> post (fun _ => 50000) two_publishers.
Proof. reflexivity. Qed.

Lemma publishMulticast_taken (ip : string) (port : Z) (addr : string) (value : Cell)
    (s : State) (mp : Destination * ElementRef) :
  registry_wf s ->
  mp ∈ dest_map s ->
  same_triple mp.1 (Destination_new ip port addr) ->
  dest_map (publishMulticast ip port addr value s).2 = dest_map s.
Proof.
  intros Hwf Hin Hsame. simpl. apply map_insert_present; [apply Hwf|]. now exists mp.
Qed.

(** ** Unicast and multicast keys of one triple *)

Lemma Destination_equiv_false (a b : Destination) :
  ~ same_triple a b -> Destination_equiv a b = false.
Proof.
  intros H. destruct (Destination_equiv a b) eqn:E; [|reflexivity].
  now apply Destination_equiv_same_triple in E.
Qed.

Lemma slot_of_insert_absent (d d1 : Destination) (r1 : ElementRef) (m : DestinationMap) :
  (forall e, e ∈ m -> ~ same_triple e.1 d) ->
  same_triple d1 d ->
  slot_of d (map_insert (d1, r1) m) = [(d1, r1)].
Proof.
  intros Hno Hsame.
  assert (Hnone : forall l : DestinationMap,
             (forall e, e ∈ l -> e ∈ m) -> slot_of d l = []).
  { intros l Hl. apply filter_none. intros e He.
    now apply Destination_equiv_false, Hno, Hl. }
  destruct (map_insert_absent (d1, r1) m) as (l1 & l2 & Hm & ->).
  { intros e He [Hi [Hp Ha]]. apply (Hno e He).
    destruct Hsame as [Hi' [Hp' Ha']]. simpl in *. repeat split; congruence. }
  unfold slot_of. rewrite List.filter_app. simpl.
  fold (slot_of d l1). fold (slot_of d l2).
  rewrite (proj2 (Destination_equiv_same_triple d1 d) Hsame).
  rewrite !Hnone; [reflexivity|..]; intros e He; rewrite Hm, elem_of_app; tauto.
Qed.

Lemma insert_equivalent_after (d1 d2 : Destination) (r1 r2 : ElementRef) (m : DestinationMap) :
  StronglySorted key_lt m ->
  (forall e, e ∈ m -> ~ same_triple e.1 d1) ->
  same_triple d1 d2 ->
  map_insert (d2, r2) (map_insert (d1, r1) m) = map_insert (d1, r1) m.
Proof.
  intros Hs Hno Hsame.
  apply map_insert_present; [now apply map_insert_sorted|].
  exists (d1, r1). split; [|exact Hsame].
  destruct (map_insert_absent (d1, r1) m Hno) as (l1 & l2 & _ & ->).
  rewrite elem_of_app, elem_of_cons. tauto.
Qed.

Lemma routed_addressed_same_triple (dg : Datagram) (mp : Destination * ElementRef)
    (ip : string) (port : Z) (addr : string) :
  routed_to dg mp -> addressed_to dg ip port addr ->
  same_triple mp.1 (Destination_new ip port addr).
Proof.
  intros (_ & Hi & Hp & m & Hm & Ha) (Hi' & Hp' & m' & Hm' & Ha').
  rewrite Hm in Hm'. injection Hm' as <-.
  repeat split; simpl; congruence.
Qed.

Lemma sorted_keys_distinct (m : DestinationMap) :
  StronglySorted key_lt m ->
  forall i j mp1 mp2,
    m !! i = Some mp1 -> m !! j = Some mp2 -> same_triple mp1.1 mp2.1 -> i = j.
Proof.
  intros Hs.
  assert (Hlt : forall i j mp1 mp2,
             (i < j)%nat -> m !! i = Some mp1 -> m !! j = Some mp2 ->
             Destination_lt mp1.1 mp2.1 = true).
  { induction Hs as [|e rest Hs IH Hall]; intros i j mp1 mp2 Hij H1 H2.
    - now rewrite lookup_nil in H1.
    - destruct j as [|j]; [lia|]. simpl in H2. destruct i as [|i].
      + simpl in H1. injection H1 as <-.
        rewrite List.Forall_forall in Hall. apply Hall.
        apply list_elem_of_In. eapply list_elem_of_lookup_2, H2.
      + simpl in H1. apply (IH i j); [lia|assumption..]. }
  intros i j mp1 mp2 H1 H2 Hsame.
  destruct (Nat.lt_trichotomy i j) as [Hij|[Hij|Hij]]; [|exact Hij|]; exfalso.
  - pose proof (Hlt i j mp1 mp2 Hij H1 H2) as H.
    apply incomparable_same_triple in Hsame as [Hf _]. congruence.
  - pose proof (Hlt j i mp2 mp1 Hij H2 H1) as H.
    apply incomparable_same_triple in Hsame as [_ Hf]. congruence.
Qed.

Lemma select_split {A : Type} (due : list bool) (l : list A) (i : nat) (x : A) (b : bool) :
  l !! i = Some x -> due !! i = Some b ->
  select due l
  = select (take i due) (take i l) ++ (if b then [x] else [])
    ++ select (drop (S i) due) (drop (S i) l).
Proof.
  revert due l. induction i as [|i IH]; intros [|b0 due] [|x0 l] Hl Hd;
    try (now rewrite lookup_nil in Hl); try (now rewrite lookup_nil in Hd).
  - simpl in Hl, Hd. injection Hl as ->. injection Hd as ->.
    simpl. now destruct b.
  - simpl in Hl, Hd. simpl. rewrite (IH due l Hl Hd). now destruct b0.
Qed.

Lemma select_elem_of {A : Type} (due : list bool) (l : list A) (x : A) :
  x ∈ select due l -> exists j : nat, l !! j = Some x.
Proof.
  revert l. induction due as [|b due IH]; intros [|x0 l] Hx;
    try (now apply elem_of_nil in Hx).
  simpl in Hx. destruct b.
  - apply elem_of_cons in Hx as [->|Hx]; [now exists 0%nat|].
    destruct (IH l Hx) as [j Hj]. now exists (S j).
  - destruct (IH l Hx) as [j Hj]. now exists (S j).
Qed.

Lemma Forall2_routed_exists (sent : list Datagram) (l : DestinationMap) :
  Forall2 routed_to sent l ->
  Forall (fun dg => exists mp, mp ∈ l /\ routed_to dg mp) sent.
Proof.
  induction 1 as [|dg mp sent l Hr _ IH]; constructor.
  - exists mp. split; [left|exact Hr].
  - revert IH. apply List.Forall_impl. intros dg' (mp' & Hin & Hr').
    exists mp'. split; [now right|exact Hr'].
Qed.

(** What a tick sends for the one entry of a (ip, port, addr): tested at
    one clock read, it gets exactly one datagram on the path of its stored
    flag if it is due at that read, and none otherwise. *)
Lemma post_routes_slot (clock : nat -> Z) (ip : string) (port : Z) (addr : string)
    (s : State) (d1 : Destination) (r1 : ElementRef) (e1 : Element) :
  registry_wf s ->
  slot_of (Destination_new ip port addr) (dest_map s) = [(d1, r1)] ->
  heap s !! r1 = Some e1 ->
  exists s' sent t,
    post clock s = Some s'
    /\ wire s' = wire s ++ sent
    /\ (ticks s <= t <= ticks s + 2 * length (dest_map s))%nat
    /\ if next (wrap32 (clock t)) (base e1)
       then exists before dg after,
              sent = before ++ dg :: after
              /\ addressed_to dg ip port addr
              /\ dg_multicast dg = is_multicast d1
              /\ Forall (fun x => ~ addressed_to x ip port addr) (before ++ after)
       else Forall (fun x => ~ addressed_to x ip port addr) sent.
Proof.
  intros Hwf Hslot He1.
  assert (Hin : In (d1, r1) (slot_of (Destination_new ip port addr) (dest_map s))).
  { rewrite Hslot. now left. }
  apply List.filter_In in Hin as [Hin Hequiv]. simpl in Hequiv.
  apply Destination_equiv_same_triple in Hequiv. destruct Hequiv as (Hi & Hp & Ha).
  simpl in Hi, Hp, Ha.
  apply list_elem_of_In, list_elem_of_lookup_1 in Hin as [i Hidx].
  destruct (post_entries_run clock (dest_map s) s (wf_nodup s Hwf) (wf_alloc s Hwf))
    as (s' & due & sent & Hpost & Hlen & Hwire & Hroute & _ & _ & Hfacts).
  destruct (Hfacts i (d1, r1) e1 Hidx He1) as [Hdue _]. cbv zeta in Hdue.
  set (t := check_tick (ticks s) due i) in *.
  rewrite (select_split due (dest_map s) i (d1, r1) _ Hidx Hdue) in Hroute.
  apply Forall2_app_inv_r in Hroute as (before & rest & Hbefore & Hrest & ->).
  apply Forall2_app_inv_r in Hrest as (mine & after & Hmine & Hafter & ->).
  assert (Hothers : forall (part : DestinationMap) (dgs : list Datagram),
             Forall2 routed_to dgs part ->
             (forall mp, mp ∈ part -> exists j, j <> i /\ dest_map s !! j = Some mp) ->
             Forall (fun x => ~ addressed_to x ip port addr) dgs).
  { intros part dgs Hr Hpart. apply Forall2_routed_exists in Hr.
    revert Hr. apply List.Forall_impl. intros dg (mp & Hmp & Hrt) Haddr.
    destruct (Hpart mp Hmp) as (j & Hji & Hj).
    pose proof (routed_addressed_same_triple dg mp ip port addr Hrt Haddr) as Hsame.
    apply Hji. apply (sorted_keys_distinct (dest_map s) (wf_sorted s Hwf) j i mp (d1, r1) Hj Hidx).
    destruct Hsame as (Hi' & Hp' & Ha'). simpl in *. repeat split; congruence. }
  assert (Hb : Forall (fun x => ~ addressed_to x ip port addr) before).
  { apply (Hothers _ _ Hbefore). intros mp Hmp.
    apply select_elem_of in Hmp as [j Hj]. apply lookup_take_Some in Hj as [Hj Hlt].
    exists j. split; [lia|exact Hj]. }
  assert (Haf : Forall (fun x => ~ addressed_to x ip port addr) after).
  { apply (Hothers _ _ Hafter). intros mp Hmp.
    apply select_elem_of in Hmp as [j Hj]. rewrite lookup_drop in Hj.
    exists (S i + j)%nat. split; [lia|exact Hj]. }
  exists s', (before ++ mine ++ after), t.
  split; [exact Hpost|]. split; [exact Hwire|].
  split.
  { pose proof (check_tick_bounds (ticks s) due i) as Hb'. fold t in Hb'.
    apply lookup_lt_Some in Hidx. lia. }
  destruct (next (wrap32 (clock t)) (base e1)).
  - inversion Hmine as [|dg mp mine' l' Hrt Hnil]; subst. inversion Hnil; subst.
    exists before, dg, after. split; [reflexivity|].
    destruct Hrt as (Hm & Hi2 & Hp2 & m & Hpay & Hadr). simpl in *.
    split; [|split; [exact Hm|]].
    + repeat split; [congruence|congruence|]. exists m. split; [exact Hpay|congruence].
    + apply List.Forall_app. now split.
  - inversion Hmine; subst. simpl. apply List.Forall_app. now split.
Qed.

(** C10: [publish] and [publishMulticast] with one (ip, port, addr), in
    either order, on a well-formed registry that has no entry for that
    triple.  The second call leaves the registry as the first call made
    it; the slot of the triple holds the one entry of the first call, with
    that call's [is_multicast] flag and that call's element; and [post()],
    for any clock, returns and tests that entry at one clock read [t]: if
    it is due then (the clock has reached the default interval) exactly
    one datagram for the triple goes out, on the path of the first call,
    unicast after [publish] first and multicast after [publishMulticast]
    first; if it is not due no datagram for the triple goes out. *)
Theorem unicast_multicast_share_slot (clock : nat -> Z)
    (ip : string) (port : Z) (addr : string) (v1 : PublishArg) (v2 : Cell) (s : State) :
  registry_wf s ->
  (forall mp, mp ∈ dest_map s -> ~ same_triple mp.1 (Destination_new ip port addr)) ->
  let d := Destination_new ip port addr in
  let p1 := publish ip port addr v1 s in
  let p2 := publishMulticast ip port addr v2 p1.2 in
  let q1 := publishMulticast ip port addr v2 s in
  let q2 := publish ip port addr v1 q1.2 in
  (dest_map p2.2 = dest_map p1.2
   /\ slot_of d (dest_map p2.2) = [(mkDestination ip port addr false, p1.1)]
   /\ exists s' sent t,
        post clock p2.2 = Some s' /\ wire s' = wire p2.2 ++ sent
        /\ (ticks p2.2 <= t <= ticks p2.2 + 2 * length (dest_map p2.2))%nat
        /\ if next (wrap32 (clock t)) Base_init
           then exists before dg after,
                  sent = before ++ dg :: after
                  /\ addressed_to dg ip port addr
                  /\ dg_multicast dg = false
                  /\ Forall (fun x => ~ addressed_to x ip port addr) (before ++ after)
           else Forall (fun x => ~ addressed_to x ip port addr) sent)
  /\ (dest_map q2.2 = dest_map q1.2
      /\ slot_of d (dest_map q2.2) = [(mkDestination ip port addr true, q1.1)]
      /\ exists s' sent t,
           post clock q2.2 = Some s' /\ wire s' = wire q2.2 ++ sent
           /\ (ticks q2.2 <= t <= ticks q2.2 + 2 * length (dest_map q2.2))%nat
           /\ if next (wrap32 (clock t)) Base_init
              then exists before dg after,
                     sent = before ++ dg :: after
                     /\ addressed_to dg ip port addr
                     /\ dg_multicast dg = true
                     /\ Forall (fun x => ~ addressed_to x ip port addr) (before ++ after)
              else Forall (fun x => ~ addressed_to x ip port addr) sent).
Proof.
  intros Hwf Hno. cbv zeta.
  split.
  - assert (Hmap : dest_map (publishMulticast ip port addr v2 (publish ip port addr v1 s).2).2
                   = dest_map (publish ip port addr v1 s).2).
    { simpl. apply insert_equivalent_after; [apply Hwf|exact Hno|repeat split]. }
    assert (Hslot : slot_of (Destination_new ip port addr)
                      (dest_map (publishMulticast ip port addr v2 (publish ip port addr v1 s).2).2)
                    = [(mkDestination ip port addr false, (publish ip port addr v1 s).1)]).
    { rewrite Hmap. simpl. apply slot_of_insert_absent; [exact Hno|repeat split]. }
    split; [exact Hmap|]. split; [exact Hslot|].
    pose proof (post_routes_slot clock ip port addr _ _ _ (make_element (store s) v1)
                  (publishMulticast_wf _ _ _ _ _ (publish_wf _ _ _ _ _ Hwf)) Hslot) as H.
    rewrite make_element_base in H. apply H.
    simpl. rewrite handle_lookup_app by (rewrite handle_lookup_fresh; now eexists).
    apply handle_lookup_fresh.
  - assert (Hmap : dest_map (publish ip port addr v1 (publishMulticast ip port addr v2 s).2).2
                   = dest_map (publishMulticast ip port addr v2 s).2).
    { simpl. apply insert_equivalent_after; [apply Hwf| |repeat split].
      intros e He [Hi [Hp Ha]]. apply (Hno e He). repeat split; assumption. }
    assert (Hslot : slot_of (Destination_new ip port addr)
                      (dest_map (publish ip port addr v1 (publishMulticast ip port addr v2 s).2).2)
                    = [(mkDestination ip port addr true, (publishMulticast ip port addr v2 s).1)]).
    { rewrite Hmap. simpl. apply slot_of_insert_absent; [exact Hno|repeat split]. }
    split; [exact Hmap|]. split; [exact Hslot|].
    pose proof (post_routes_slot clock ip port addr _ _ _ (make_element (store s) (ByCString v2))
                  (publish_wf _ _ _ _ _ (publishMulticast_wf _ _ _ _ _ Hwf)) Hslot) as H.
    rewrite make_element_base in H. apply H.
    simpl. rewrite handle_lookup_app by (rewrite handle_lookup_fresh; now eexists).
    apply handle_lookup_fresh.
Qed.

Lemma unicast_multicast_share_slot_witness :
  registry_wf two_publishers
  /\ (forall mp, mp ∈ dest_map two_publishers ->
        ~ same_triple mp.1 (Destination_new "10.0.0.9" 8000 "/z"))
  /\ let d := Destination_new "10.0.0.9" 8000 "/z" in
     let p1 := publish "10.0.0.9" 8000 "/z" (ByValue (ArgInt32 1)) two_publishers in
     let p2 := publishMulticast "10.0.0.9" 8000 "/z" 1%nat p1.2 in
     let q1 := publishMulticast "10.0.0.9" 8000 "/z" 1%nat two_publishers in
     let q2 := publish "10.0.0.9" 8000 "/z" (ByValue (ArgInt32 1)) q1.2 in
     (dest_map p2.2 = dest_map p1.2
      /\ slot_of d (dest_map p2.2) = [(mkDestination "10.0.0.9" 8000 "/z" false, p1.1)]
      /\ exists s' sent t,
           post (fun _ => 50000) p2.2 = Some s' /\ wire s' = wire p2.2 ++ sent
           /\ (ticks p2.2 <= t <= ticks p2.2 + 2 * length (dest_map p2.2))%nat
           /\ if next (wrap32 ((fun _ => 50000) t)) Base_init
              then exists before dg after,
                     sent = before ++ dg :: after
                     /\ addressed_to dg "10.0.0.9" 8000 "/z"
                     /\ dg_multicast dg = false
                     /\ Forall (fun x => ~ addressed_to x "10.0.0.9" 8000 "/z") (before ++ after)
              else Forall (fun x => ~ addressed_to x "10.0.0.9" 8000 "/z") sent)
     /\ (dest_map q2.2 = dest_map q1.2
         /\ slot_of d (dest_map q2.2) = [(mkDestination "10.0.0.9" 8000 "/z" true, q1.1)]
         /\ exists s' sent t,
              post (fun _ => 50000) q2.2 = Some s' /\ wire s' = wire q2.2 ++ sent
              /\ (ticks q2.2 <= t <= ticks q2.2 + 2 * length (dest_map q2.2))%nat
              /\ if next (wrap32 ((fun _ => 50000) t)) Base_init
                 then exists before dg after,
                        sent = before ++ dg :: after
                        /\ addressed_to dg "10.0.0.9" 8000 "/z"
                        /\ dg_multicast dg = true
                        /\ Forall (fun x => ~ addressed_to x "10.0.0.9" 8000 "/z") (before ++ after)
                 else Forall (fun x => ~ addressed_to x "10.0.0.9" 8000 "/z") sent).
Proof.
  assert (Hno : forall mp, mp ∈ dest_map two_publishers ->
                  ~ same_triple mp.1 (Destination_new "10.0.0.9" 8000 "/z")).
  { intros mp Hin [Hi _]. vm_compute in Hin.
    apply elem_of_cons in Hin as [->|Hin]; [discriminate Hi|].
    apply elem_of_cons in Hin as [->|Hin]; [discriminate Hi|].
    now apply elem_of_nil in Hin. }
  split; [apply two_publishers_wf|]. split; [exact Hno|].
  apply (unicast_multicast_share_slot (fun _ => 50000) "10.0.0.9" 8000 "/z"
           (ByValue (ArgInt32 1)) 1%nat two_publishers);
    [apply two_publishers_wf|exact Hno].
Defined.

(** From the initial state: [publish] then [publishMulticast] to one
    triple sends one unicast datagram with the first value; the other
    order sends one multicast datagram with the string. *)
Example unicast_first_then_multicast :
  let s0 := initial_state demo_store in
  let s1 := (publish "10.0.0.9" 8000 "/z" (ByValue (ArgInt32 1)) s0).2 in
  let s2 := (publishMulticast "10.0.0.9" 8000 "/z" 1%nat s1).2 in
  wire <$> post (fun _ => 50000) s2
  = Some [mkDatagram false "10.0.0.9" 8000 [mkMessage "/z" [ArgInt32 1]]].
Proof. reflexivity. Qed.

Example multicast_first_then_unicast :
  let s0 := initial_state demo_store in
  let s1 := (publishMulticast "10.0.0.9" 8000 "/z" 1%nat s0).2 in
  let s2 := (publish "10.0.0.9" 8000 "/z" (ByValue (ArgInt32 1)) s1).2 in
  wire <$> post (fun _ => 50000) s2
  = Some [mkDatagram true "10.0.0.9" 8000 [mkMessage "/z" [ArgString "on"]]].
Proof. reflexivity. Qed.

(** * Further properties of the header *)

(** ** One-off sends *)

Lemma Client_send_rest_spec (ip : string) (port : Z) (rest : list OscArg) (s : State) :
  Client_send_rest ip port rest s
  = let m := mkMessage (address (msg (client s))) (args (msg (client s)) ++ rest) in
    mkState (heap s) (store s) (ticks s) (mkClient [m] m (local_port (client s)))
      (dest_map s) (wire s ++ [mkDatagram false ip port [m]]).
Proof.
  revert s. induction rest as [|first rest IH]; intros s.
  - destruct s as [h st tk [w [a ar] lp] dm wr].
    unfold Client_send_rest, Client_send_message, Client_send_buffer. simpl.
    now rewrite app_nil_r.
  - simpl. rewrite IH. simpl. now rewrite <- app_assoc.
Qed.

(** X1: the one-off [send(ip, port, addr, args...)] of the client and of
    the manager hands the socket exactly one unicast datagram for
    [ip]:[port], holding one message with the address [addr] and the
    arguments in call order, whatever the scratch message and the encoder
    buffer held before; the registry, the elements, the caller's storage
    and the clock reads are not touched. *)
Theorem Manager_send_one_datagram (ip : string) (port : Z) (addr : string)
    (ts : list OscArg) (s : State) :
  let s' := Manager_send ip port addr ts s in
  wire s' = wire s ++ [mkDatagram false ip port [mkMessage addr ts]]
  /\ msg (client s') = mkMessage addr ts
  /\ local_port (client s') = local_port (client s)
  /\ dest_map s' = dest_map s /\ heap s' = heap s
  /\ store s' = store s /\ ticks s' = ticks s.
Proof.
  cbv zeta. unfold Manager_send, Client_send. rewrite Client_send_rest_spec.
  simpl. repeat split.
Qed.

(** ** [Destination]: equality against order, and assignment *)

(** X2: [d1 == d2] holds exactly when [d1] and [d2] are equivalent as
    keys ([!(d1 < d2) && !(d2 < d1)]) and carry the same [is_multicast]
    flag; so equal destinations are never ordered, and two destinations
    that are not ordered differ at most in the flag. *)
Theorem Destination_eq_equiv_and_flag (d1 d2 : Destination) :
  Destination_eq d1 d2 = true
  <-> Destination_equiv d1 d2 = true /\ is_multicast d1 = is_multicast d2.
Proof.
  rewrite Destination_equiv_same_triple. unfold Destination_eq, same_triple.
  rewrite !andb_true_iff, !String.eqb_eq, Z.eqb_eq, Bool.eqb_true_iff.
  tauto.
Qed.

(** X3: what the two assignment operators leave behind.  After the move
    assignment the left operand equals the value that the right operand
    had, and the right operand is left with an empty [ip] and an empty
    [addr], its [port] and flag kept; so the two operands compare equal
    afterwards exactly when the right operand's [ip] and [addr] were empty
    to begin with.  After the copy assignment the operands compare equal
    exactly when the left operand had the right operand's [addr]
    beforehand, and the left operand is ordered before the right one
    exactly as its old [addr] is before the right one's. *)
Theorem Destination_assign_then_compare (d1 d2 : Destination) :
  Destination_eq (Destination_move_assign d1 d2).1 d2 = true
  /\ (Destination_move_assign d1 d2).2
     = mkDestination EmptyString (port d2) EmptyString (is_multicast d2)
  /\ (Destination_eq (Destination_move_assign d1 d2).1 (Destination_move_assign d1 d2).2 = true
      <-> ip d2 = EmptyString /\ addr d2 = EmptyString)
  /\ (Destination_eq (Destination_copy_assign d1 d2) d2 = true <-> addr d1 = addr d2)
  /\ Destination_lt (Destination_copy_assign d1 d2) d2 = String.ltb (addr d1) (addr d2)
  /\ Destination_lt d2 (Destination_copy_assign d1 d2) = String.ltb (addr d2) (addr d1).
Proof.
  split; [apply Destination_move_assign_eq|].
  split; [reflexivity|].
  split.
  { unfold Destination_eq, Destination_move_assign. simpl.
    rewrite !andb_true_iff, !String.eqb_eq, Z.eqb_eq, Bool.eqb_true_iff. tauto. }
  rewrite Destination_copy_assign_fields.
  split; [|split].
  - unfold Destination_eq. simpl.
    rewrite !andb_true_iff, !String.eqb_eq, Z.eqb_eq, Bool.eqb_true_iff. tauto.
  - unfold Destination_lt. simpl. now rewrite String.eqb_refl, Z.eqb_refl.
  - unfold Destination_lt. simpl. now rewrite String.eqb_refl, Z.eqb_refl.
Qed.

(** ** Encoding of arbitrary elements *)

Lemma leaf_count_Tuple (b : Base) (ts : list Element) :
  leaf_count (Tuple b ts) = list_sum (map leaf_count ts).
Proof.
  simpl. induction ts as [|t ts IH]; simpl; [reflexivity|]. now rewrite IH.
Qed.

Lemma getter_free_Tuple (b : Base) (ts : list Element) :
  getter_free (Tuple b ts) = forallb getter_free ts.
Proof.
  simpl. induction ts as [|t ts IH]; simpl; [reflexivity|]. now rewrite IH.
Qed.

Lemma encodeTo_appends (e : Element) (st : Store) :
  exists vs st',
    length vs = leaf_count e
    /\ forall m, encodeTo e st m = (mkMessage (address m) (args m ++ vs), st').
Proof.
  revert st.
  induction e as [b t|b t|b g|b ts IH] using Element_nested_ind; intros st.
  - exists [st t], st. split; reflexivity.
  - exists [held_value st t], st. split; reflexivity.
  - exists [(g st).1], (g st).2. split; [reflexivity|].
    intros m. simpl. now destruct (g st).
  - rewrite leaf_count_Tuple.
    assert (H : exists vs st',
               length vs = list_sum (map leaf_count ts)
               /\ forall m, encode_each ts st m = (mkMessage (address m) (args m ++ vs), st')).
    { revert st. induction IH as [|t ts Ht _ IHts]; intros st.
      - exists [], st. split; [reflexivity|]. intros m. simpl.
        rewrite app_nil_r. now destruct m.
      - destruct (Ht st) as (vs1 & st1 & Hl1 & He1).
        destruct (IHts st1) as (vs2 & st2 & Hl2 & He2).
        exists (vs1 ++ vs2), st2. split.
        + rewrite length_app. simpl. lia.
        + intros m. simpl. rewrite He1, He2. simpl. now rewrite <- app_assoc. }
    destruct H as (vs & st' & Hl & He). exists vs, st'. split; [exact Hl|].
    intros m. rewrite encodeTo_Tuple. apply He.
Qed.

(** X4: [encodeTo], for every element, nested tuples included, only
    appends: the address of the message and the arguments already in it
    stay, and as many arguments are added as the element has non-tuple
    parts.  The arguments added and the effect on the caller's storage do
    not depend on the message being filled. *)
Theorem encodeTo_only_appends (e : Element) (st : Store) :
  exists vs st',
    length vs = leaf_count e
    /\ forall m,
         encodeTo e st m = (mkMessage (address m) (args m ++ vs), st').
Proof. apply encodeTo_appends. Qed.

(** X5: a tuple inside a tuple encodes as its children would in its
    place: nesting changes neither the arguments nor their order nor what
    the getters see. *)
Theorem Tuple_nesting_flattens (b b' : Base) (ts1 ts ts2 : list Element)
    (st : Store) (m : Message) :
  encodeTo (Tuple b (ts1 ++ Tuple b' ts :: ts2)) st m
  = encodeTo (Tuple b (ts1 ++ ts ++ ts2)) st m.
Proof.
  rewrite !encodeTo_Tuple, !encode_each_app.
  destruct (encode_each ts1 st m) as [m1 st1]. cbn [fst snd].
  cbn [encode_each]. rewrite encodeTo_Tuple.
  now destruct (encode_each ts st1 m1) as [m2 st2].
Qed.

Lemma encodeTo_with_base (f : Base -> Base) (e : Element) (st : Store) (m : Message) :
  encodeTo (with_base f e) st m = encodeTo e st m.
Proof. now destruct e. Qed.

Lemma getter_free_with_base (f : Base -> Base) (e : Element) :
  getter_free (with_base f e) = getter_free e.
Proof. now destruct e. Qed.

Lemma base_with_base (f : Base -> Base) (e : Element) :
  base (with_base f e) = f (base e).
Proof. now destruct e. Qed.

Lemma encodeTo_getter_free (e : Element) :
  getter_free e = true -> forall st m, (encodeTo e st m).2 = st.
Proof.
  induction e as [b t|b t|b g|b ts IH] using Element_nested_ind; intros Hg st m;
    try reflexivity; [discriminate|].
  rewrite getter_free_Tuple in Hg. rewrite encodeTo_Tuple. revert Hg st m.
  induction IH as [|t ts Ht _ IHts]; intros Hg st m; simpl; [reflexivity|].
  simpl in Hg. apply andb_true_iff in Hg as [Hg1 Hg2].
  specialize (Ht Hg1 st m). destruct (encodeTo t st m) as [m' st']. simpl in Ht.
  subst st'. now apply IHts.
Qed.

(** ** Growth of the registry *)

Lemma map_insert_dichotomy (d : Destination) (r : ElementRef) (m : DestinationMap) :
  StronglySorted key_lt m -> inserted_if_free d r m (map_insert (d, r) m).
Proof.
  intros Hs.
  destruct (List.existsb (fun e : Destination * ElementRef => Destination_equiv e.1 d) m) eqn:E.
  - left. apply List.existsb_exists in E as (e & Hin & He).
    apply Destination_equiv_same_triple in He. apply list_elem_of_In in Hin.
    split; [now exists e|]. apply map_insert_present; [exact Hs|now exists e].
  - right.
    assert (Hno : forall mp, mp ∈ m -> ~ same_triple mp.1 d).
    { intros mp Hin Hsame.
      assert (Hex : List.existsb (fun e : Destination * ElementRef => Destination_equiv e.1 d) m = true).
      { apply List.existsb_exists. exists mp. split; [now apply list_elem_of_In|].
        now apply Destination_equiv_same_triple. }
      congruence. }
    split; [exact Hno|]. now apply (map_insert_absent (d, r) m).
Qed.

Lemma map_insert_keeps (kv mp : Destination * ElementRef) (m : DestinationMap) :
  mp ∈ m -> mp ∈ map_insert kv m.
Proof.
  destruct (map_insert_cases kv m) as [->|(l1 & l2 & -> & ->)]; [auto|].
  rewrite !elem_of_app, elem_of_cons. tauto.
Qed.

(** X6: a registration never removes or replaces an entry, and it adds
    at most the one it was called for: every entry of the registry is
    still there after [publish], [publishMulticast] or the variadic
    [publish], with its handle; if the registry was well formed, it is
    unchanged when it had an entry for the (ip, port, addr) of the call,
    and otherwise it has gained exactly the entry of the call, placed
    between entries that keep their order. *)
Theorem publish_grows_registry (ip : string) (port : Z) (addr : string)
    (v : PublishArg) (v' : Cell) (ts : list PublishArg) (s : State) :
  registry_wf s ->
  let p := publish ip port addr v s in
  let q := publishMulticast ip port addr v' s in
  let t := publish_variadic ip port addr ts s in
  (forall mp, mp ∈ dest_map s ->
     mp ∈ dest_map p.2 /\ mp ∈ dest_map q.2 /\ mp ∈ dest_map t.2)
  /\ inserted_if_free (mkDestination ip port addr false) p.1 (dest_map s) (dest_map p.2)
  /\ inserted_if_free (mkDestination ip port addr true) q.1 (dest_map s) (dest_map q.2)
  /\ inserted_if_free (mkDestination ip port addr false) t.1 (dest_map s) (dest_map t.2).
Proof.
  intros Hwf. cbv zeta. split; [|split; [|split]].
  - intros mp Hin. simpl. repeat split; now apply map_insert_keeps.
  - simpl. apply map_insert_dichotomy, Hwf.
  - simpl. apply map_insert_dichotomy, Hwf.
  - simpl. apply map_insert_dichotomy, Hwf.
Qed.

Lemma publish_grows_registry_witness :
  registry_wf two_publishers
  /\ let p := publish "10.0.0.5" 9000 "/x" (ByValue (ArgInt32 7)) two_publishers in
     let q := publishMulticast "10.0.0.5" 9000 "/x" 1%nat two_publishers in
     let t := publish_variadic "10.0.0.5" 9000 "/x" [ByValue (ArgInt32 7)] two_publishers in
     (forall mp, mp ∈ dest_map two_publishers ->
        mp ∈ dest_map p.2 /\ mp ∈ dest_map q.2 /\ mp ∈ dest_map t.2)
     /\ inserted_if_free (mkDestination "10.0.0.5" 9000 "/x" false) p.1
          (dest_map two_publishers) (dest_map p.2)
     /\ inserted_if_free (mkDestination "10.0.0.5" 9000 "/x" true) q.1
          (dest_map two_publishers) (dest_map q.2)
     /\ inserted_if_free (mkDestination "10.0.0.5" 9000 "/x" false) t.1
          (dest_map two_publishers) (dest_map t.2).
Proof.
  split; [apply two_publishers_wf|].
  apply (publish_grows_registry "10.0.0.5" 9000 "/x" (ByValue (ArgInt32 7)) 1%nat
           [ByValue (ArgInt32 7)] two_publishers).
  apply two_publishers_wf.
Defined.

(** ** What every reachable process satisfies *)

Lemma handle_setIntervalUsec_wf (ref : ElementRef) (us : Z) (s s' : State) :
  handle_setIntervalUsec ref us s = Some s' -> registry_wf s -> registry_wf s'.
Proof.
  unfold handle_setIntervalUsec. destruct (heap s !! ref) as [e|]; [|discriminate].
  simpl. intros [= <-]. apply registry_wf_same_registry; simpl; [reflexivity|].
  apply handle_insert_length.
Qed.

Lemma Manager_send_wf (ip : string) (port : Z) (addr : string) (ts : list OscArg) (s : State) :
  registry_wf s -> registry_wf (Manager_send ip port addr ts s).
Proof.
  unfold Manager_send, Client_send. rewrite Client_send_rest_spec.
  now apply registry_wf_same_registry.
Qed.

(** X7: whatever sequence of registrations, interval changes through a
    handle, one-off sends, local-port changes, ticks and assignments to
    the caller's variables has run since start-up, the registry is well
    formed: its keys are in strictly increasing order, so it holds at most
    one entry per (ip, port, addr); every handle in it owns an object; no
    object is registered twice; and [post()] returns on it, whatever the
    clock reads. *)
Theorem reachable_registry_wf (s : State) :
  reachable s ->
  registry_wf s
  /\ (forall i j mp1 mp2,
        dest_map s !! i = Some mp1 -> dest_map s !! j = Some mp2 ->
        same_triple mp1.1 mp2.1 -> i = j)
  /\ (forall clock, exists s', post clock s = Some s').
Proof.
  intros Hr.
  assert (Hwf : registry_wf s).
  { induction Hr as [st|ip port addr v s _ IH|ip port addr v s _ IH|ip port addr ts s _ IH
                    |ref us s s' _ IH Hset|ip port addr ts s _ IH|p s _ IH
                    |clock s s' _ IH Hpost|st s _ IH].
    - apply initial_state_wf.
    - now apply publish_wf.
    - now apply publishMulticast_wf.
    - now apply publish_variadic_wf.
    - eapply handle_setIntervalUsec_wf; eauto.
    - now apply Manager_send_wf.
    - revert IH. now apply registry_wf_same_registry.
    - destruct (post_wf clock s IH) as (s'' & Hpost' & Hwf').
      rewrite Hpost in Hpost'. now injection Hpost' as ->.
    - revert IH. now apply registry_wf_same_registry. }
  split; [exact Hwf|]. split.
  - apply sorted_keys_distinct, Hwf.
  - intros clock. destruct (post_wf clock s Hwf) as (s' & Hpost & _). now exists s'.
Qed.

Lemma reachable_registry_wf_witness :
  reachable two_publishers
  /\ registry_wf two_publishers
  /\ (forall i j mp1 mp2,
        dest_map two_publishers !! i = Some mp1 -> dest_map two_publishers !! j = Some mp2 ->
        same_triple mp1.1 mp2.1 -> i = j)
  /\ (forall clock, exists s', post clock two_publishers = Some s').
Proof.
  assert (Hr : reachable two_publishers).
  { apply reach_publishMulticast, reach_publish, reach_initial. }
  split; [exact Hr|]. apply (reachable_registry_wf two_publishers Hr).
Defined.

(** ** What a tick costs and what it leaves alone *)

Section PostCost.

Variable clock : nat -> Z.

Lemma post_entries_cost (entries : DestinationMap) :
  forall s,
  Forall (fun mp : Destination * ElementRef => is_Some (heap s !! mp.2)) entries ->
  exists s' sent,
    post_entries clock entries s = Some s'
    /\ wire s' = wire s ++ sent
    /\ (length sent <= length entries)%nat
    /\ ticks s' = (ticks s + length entries + length sent)%nat
    /\ length (heap s') = length (heap s)
    /\ dest_map s' = dest_map s
    /\ local_port (client s') = local_port (client s)
    /\ (forall r, r ∉ map snd entries -> heap s' !! r = heap s !! r).
Proof.
  induction entries as [|mp rest IH]; intros s Hall.
  - exists s, []. simpl. rewrite app_nil_r. repeat split; lia.
  - apply List.Forall_cons_iff in Hall as [Hmp Hall].
    destruct Hmp as [e He].
    destruct (next (wrap32 (clock (ticks s))) (base e)) eqn:Hn.
    + pose proof (post_entry_due clock mp s e He Hn) as Hstep. cbv zeta in Hstep.
      set (s1 := mkState _ _ _ _ _ _) in Hstep.
      destruct (IH s1) as (s' & sent & Hpost & Hwire & Hle & Htk & Hlen & Hmap & Hlp & Hfr).
      { simpl. revert Hall. apply List.Forall_impl. intros mp'.
        apply handle_lookup_same_length, handle_insert_length. }
      exists s', (mkDatagram (is_multicast mp.1) (ip mp.1) (port mp.1)
                    [(encodeTo (stamped (wrap32 (clock (S (ticks s)))) e) (store s)
                        (Message_init (addr mp.1) (msg (client s)))).1] :: sent).
      split; [simpl; now rewrite Hstep|].
      split; [rewrite Hwire; simpl; now rewrite <- app_assoc|].
      split; [simpl; lia|].
      split; [rewrite Htk; simpl; lia|].
      split; [rewrite Hlen; simpl; apply handle_insert_length|].
      split; [exact Hmap|]. split; [exact Hlp|].
      intros r Hr. simpl in Hr. apply not_elem_of_cons in Hr as [Hr1 Hr2].
      rewrite Hfr by exact Hr2. simpl. apply handle_insert_ne. congruence.
    + pose proof (post_entry_idle clock mp s e He Hn) as Hstep.
      destruct (IH (set_ticks (S (ticks s)) s) Hall)
        as (s' & sent & Hpost & Hwire & Hle & Htk & Hlen & Hmap & Hlp & Hfr).
      exists s', sent.
      split; [simpl; now rewrite Hstep|].
      split; [exact Hwire|].
      split; [simpl; lia|].
      split; [rewrite Htk; simpl; lia|].
      split; [exact Hlen|]. split; [exact Hmap|]. split; [exact Hlp|].
      intros r Hr. simpl in Hr. apply not_elem_of_cons in Hr as [Hr1 Hr2].
      now apply Hfr.
Qed.

Lemma post_entries_getter_free (entries : DestinationMap) :
  forall s s',
  (forall mp e, mp ∈ entries -> heap s !! mp.2 = Some e -> getter_free e = true) ->
  post_entries clock entries s = Some s' ->
  store s' = store s.
Proof.
  induction entries as [|mp rest IH]; intros s s' Hfree Hpost.
  - simpl in Hpost. now injection Hpost as <-.
  - simpl in Hpost.
    destruct (heap s !! mp.2) as [e|] eqn:He.
    2:{ unfold post_entry in Hpost. rewrite He in Hpost. discriminate. }
    assert (Hge : getter_free e = true) by (apply (Hfree mp e); [left|exact He]).
    destruct (next (wrap32 (clock (ticks s))) (base e)) eqn:Hn.
    + rewrite (post_entry_due clock mp s e He Hn) in Hpost. cbv zeta in Hpost.
      simpl in Hpost. apply IH in Hpost.
      * rewrite Hpost. simpl. apply encodeTo_getter_free.
        unfold stamped. now rewrite getter_free_with_base.
      * intros mp' e' Hin' He'. simpl in He'.
        destruct (decide (mp.2 = mp'.2)) as [Heq|Hne].
        -- rewrite <- Heq in He'.
           rewrite handle_insert_eq in He' by (now exists e).
           injection He' as <-. unfold stamped. now rewrite getter_free_with_base.
        -- rewrite handle_insert_ne in He' by exact Hne.
           apply (Hfree mp' e'); [now right|exact He'].
    + rewrite (post_entry_idle clock mp s e He Hn) in Hpost. simpl in Hpost.
      apply IH in Hpost; [exact Hpost|].
      intros mp' e' Hin' He'. apply (Hfree mp' e'); [now right|exact He'].
Qed.

End PostCost.

(** X8: one call of [post()] on a well-formed registry, whatever the
    clock does.  It returns; it only adds datagrams after those already
    sent, at most one per entry; it reads the clock once per entry and once
    more per datagram; the registry, the number of objects, the local port
    and every object that is not registered are as before. *)
Theorem post_cost_and_frame (clock : nat -> Z) (s : State) :
  registry_wf s ->
  exists s' sent,
    post clock s = Some s'
    /\ wire s' = wire s ++ sent
    /\ (length sent <= length (dest_map s))%nat
    /\ ticks s' = (ticks s + length (dest_map s) + length sent)%nat
    /\ dest_map s' = dest_map s
    /\ length (heap s') = length (heap s)
    /\ local_port (client s') = local_port (client s)
    /\ (forall r, r ∉ map snd (dest_map s) -> heap s' !! r = heap s !! r).
Proof.
  intros Hwf.
  destruct (post_entries_cost clock (dest_map s) s (wf_alloc s Hwf))
    as (s' & sent & Hpost & Hwire & Hle & Htk & Hlen & Hmap & Hlp & Hfr).
  exists s', sent. repeat split; assumption.
Qed.

Lemma post_cost_and_frame_witness :
  registry_wf two_publishers
  /\ exists s' sent,
      post (fun _ => 50000) two_publishers = Some s'
      /\ wire s' = wire two_publishers ++ sent
      /\ (length sent <= length (dest_map two_publishers))%nat
      /\ ticks s' = (ticks two_publishers + length (dest_map two_publishers) + length sent)%nat
      /\ dest_map s' = dest_map two_publishers
      /\ length (heap s') = length (heap two_publishers)
      /\ local_port (client s') = local_port (client two_publishers)
      /\ (forall r, r ∉ map snd (dest_map two_publishers) ->
            heap s' !! r = heap two_publishers !! r).
Proof.
  split; [apply two_publishers_wf|].
  apply (post_cost_and_frame (fun _ => 50000) two_publishers), two_publishers_wf.
Defined.

(** X9: a tick writes to the caller's storage only through getters: on a
    well-formed registry none of whose elements contains a getter,
    [post()] returns and leaves the caller's storage as it was. *)
Theorem post_getter_free_keeps_store (clock : nat -> Z) (s : State) :
  registry_wf s ->
  (forall mp e, mp ∈ dest_map s -> heap s !! mp.2 = Some e -> getter_free e = true) ->
  exists s', post clock s = Some s' /\ store s' = store s.
Proof.
  intros Hwf Hfree. destruct (post_wf clock s Hwf) as (s' & Hpost & _).
  exists s'. split; [exact Hpost|].
  now apply (post_entries_getter_free clock (dest_map s) s s').
Qed.

Lemma post_getter_free_keeps_store_witness :
  registry_wf two_publishers
  /\ (forall mp e, mp ∈ dest_map two_publishers ->
        heap two_publishers !! mp.2 = Some e -> getter_free e = true)
  /\ exists s', post (fun _ => 50000) two_publishers = Some s'
               /\ store s' = store two_publishers.
Proof.
  assert (Hfree : forall mp e, mp ∈ dest_map two_publishers ->
                    heap two_publishers !! mp.2 = Some e -> getter_free e = true).
  { intros mp e Hin. vm_compute in Hin.
    apply elem_of_cons in Hin as [->|Hin].
    { vm_compute. now intros [= <-]. }
    apply elem_of_cons in Hin as [->|Hin].
    { vm_compute. now intros [= <-]. }
    now apply elem_of_nil in Hin. }
  split; [apply two_publishers_wf|]. split; [exact Hfree|].
  apply (post_getter_free_keeps_store (fun _ => 50000) two_publishers);
    [apply two_publishers_wf|exact Hfree].
Defined.

(** ** Two ticks in a row *)

Lemma base_stamped (now : Z) (e : Element) :
  base (stamped now e) = set_last_publish_us now (base e).
Proof. unfold stamped. apply base_with_base. Qed.

(** X10: rate limiting across two calls of [post()] on a well-formed
    registry, the clock reading [now1] throughout the first call and
    [now2] throughout the second.  Both calls return; the second sends, in
    registry order, one datagram for each entry that is due then, where an
    entry sent by the first call is due again exactly when [now2] has
    reached the 32-bit sum of [now1] and its interval, and any other entry
    is judged from its old [last_publish_us].  In particular an entry sent
    at [now1] is not sent again while [now1 <= now2 < now1 + interval_us],
    and is sent again once [now2 >= now1 + interval_us], as long as that
    sum does not overflow. *)
Theorem post_twice_rate_limit (now1 now2 : Z) (s : State) :
  registry_wf s -> uint32 now1 -> uint32 now2 ->
  exists s1 s2 sent2,
    post (fun _ => now1) s = Some s1
    /\ post (fun _ => now2) s1 = Some s2
    /\ wire s2 = wire s1 ++ sent2
    /\ Forall2 routed_to sent2
         (List.filter (due_in_second_tick now1 now2 (heap s)) (dest_map s))
    /\ (forall mp e, mp ∈ dest_map s -> heap s !! mp.2 = Some e ->
          next now1 (base e) = true ->
          now1 + interval_us (base e) < 2 ^ 32 ->
          (now1 <= now2 < now1 + interval_us (base e) ->
             due_in_second_tick now1 now2 (heap s) mp = false)
          /\ (0 <= interval_us (base e) -> now1 + interval_us (base e) <= now2 ->
                due_in_second_tick now1 now2 (heap s) mp = true)).
Proof.
  intros Hwf Hn1 Hn2.
  pose proof (wrap32_small now1 Hn1) as Hw1.
  pose proof (wrap32_small now2 Hn2) as Hw2.
  destruct (post_entries_settled (fun _ => now1)
              (due_at (fun _ => now1) (ticks s) (heap s)) (dest_map s) s)
    as (s1 & sent1 & Hpost1 & _ & _ & Hmap1 & _ & _ & Helems1).
  { apply Hwf. }
  { intros mp Hin. destruct (registry_wf_lookup s mp Hwf Hin) as [e He].
    exists e. split; [exact He|]. intros t _. unfold due_at. now rewrite He. }
  destruct (post_entries_settled (fun _ => now2)
              (due_in_second_tick now1 now2 (heap s)) (dest_map s) s1)
    as (s2 & sent2 & Hpost2 & Hwire2 & Hroute2 & _).
  { apply Hwf. }
  { intros mp Hin. destruct (registry_wf_lookup s mp Hwf Hin) as [e He].
    specialize (Helems1 mp e Hin He). unfold due_at in Helems1.
    rewrite He, Hw1 in Helems1. unfold due_in_second_tick. rewrite He.
    destruct (next now1 (base e)).
    - destruct Helems1 as (t & _ & Hl).
      eexists. split; [exact Hl|]. intros t' _. cbv beta. now rewrite Hw2, base_stamped.
    - exists e. split; [exact Helems1|]. intros t' _. cbv beta. now rewrite Hw2. }
  exists s1, s2, sent2.
  split; [exact Hpost1|].
  split; [unfold post; now rewrite Hmap1|].
  split; [exact Hwire2|]. split; [exact Hroute2|].
  intros mp e Hin He Hdue Hsum. unfold due_in_second_tick. rewrite He, Hdue.
  unfold next, uint32 in *. simpl. split.
  - intros Hrange. rewrite wrap32_small by lia. rewrite Z.geb_leb. apply Z.leb_gt. lia.
  - intros Hi Hge. rewrite wrap32_small by lia. apply Z.geb_le. lia.
Qed.

Lemma post_twice_rate_limit_witness :
  registry_wf two_publishers /\ uint32 50000 /\ uint32 60000
  /\ exists s1 s2 sent2,
      post (fun _ => 50000) two_publishers = Some s1
      /\ post (fun _ => 60000) s1 = Some s2
      /\ wire s2 = wire s1 ++ sent2
      /\ Forall2 routed_to sent2
           (List.filter (due_in_second_tick 50000 60000 (heap two_publishers))
              (dest_map two_publishers))
      /\ (forall mp e, mp ∈ dest_map two_publishers ->
            heap two_publishers !! mp.2 = Some e ->
            next 50000 (base e) = true ->
            50000 + interval_us (base e) < 2 ^ 32 ->
            (50000 <= 60000 < 50000 + interval_us (base e) ->
               due_in_second_tick 50000 60000 (heap two_publishers) mp = false)
            /\ (0 <= interval_us (base e) -> 50000 + interval_us (base e) <= 60000 ->
                  due_in_second_tick 50000 60000 (heap two_publishers) mp = true)).
Proof.
  split; [apply two_publishers_wf|].
  split; [unfold uint32; lia|]. split; [unfold uint32; lia|].
  apply (post_twice_rate_limit 50000 60000 two_publishers);
    [apply two_publishers_wf|unfold uint32; lia..].
Defined.

(** Ten milliseconds after a tick that sent both entries nothing goes out;
    forty milliseconds after it both go out again. *)
Example post_twice_two_publishers :
  (wire <$> (post (fun _ => 50000) two_publishers ≫= post (fun _ => 60000)))
  = (wire <$> post (fun _ => 50000) two_publishers)
  /\ (length <$> (wire <$> (post (fun _ => 50000) two_publishers ≫= post (fun _ => 90000))))
     = Some 4%nat.
Proof. split; reflexivity. Qed.

(** ** From registration to the first datagram *)

Lemma post_single_entry (clock : nat -> Z) (mp : Destination * ElementRef) (s : State) :
  dest_map s = [mp] -> post clock s = post_entry clock mp s.
Proof.
  intros Hm. unfold post. rewrite Hm. simpl. now destruct (post_entry clock mp s).
Qed.

(** X11: the first tick after a registration into an empty registry.
    [publish] registers the value, the interval is set to [us] through the
    handle, the caller's storage becomes [st], and [post()] runs with the
    clock at [now].  If [now >= us] exactly one unicast datagram goes to
    [ip]:[port], holding one message for [addr] with the one argument that
    the source yields on the storage [st]: the variable's present content
    for a reference, the content at registration for a constant made from
    a value, the buffer's present content for a constant made from a C
    string, the getter's result for a getter.  If [now < us] nothing is
    sent. *)
Theorem first_tick_after_publish (ip : string) (port : Z) (addr : string)
    (a : PublishArg) (us now : Z) (st : Store) (s : State) :
  dest_map s = [] -> uint32 us -> uint32 now ->
  let p := publish ip port addr a s in
  exists s1 s2,
    handle_setIntervalUsec p.1 us p.2 = Some s1
    /\ post (fun _ => now) (set_store st s1) = Some s2
    /\ wire s2
       = wire s ++ (if now >=? us
                    then [mkDatagram false ip port
                            [mkMessage addr [(source_value (store s) a st).1]]]
                    else [])
    /\ store s2 = (if now >=? us then (source_value (store s) a st).2 else st).
Proof.
  intros Hempty Hus Hnow. cbv zeta.
  set (e0 := make_element (store s) a).
  set (e1 := with_base (setIntervalUsec us) e0).
  set (r := Some (length (heap s))).
  set (d := Destination_new ip port addr).
  assert (Hp1 : (publish ip port addr a s).1 = r) by reflexivity.
  assert (Hheap : heap (publish ip port addr a s).2 = heap s ++ [e0]) by reflexivity.
  assert (Hmap : dest_map (publish ip port addr a s).2 = [(d, r)]).
  { simpl. now rewrite Hempty. }
  assert (Hlook : heap (publish ip port addr a s).2 !! r = Some e0).
  { rewrite Hheap. apply handle_lookup_fresh. }
  set (s1 := set_heap (<[r := e1]> (heap (publish ip port addr a s).2))
               (publish ip port addr a s).2).
  exists s1.
  assert (Hset : handle_setIntervalUsec r us (publish ip port addr a s).2 = Some s1).
  { unfold handle_setIntervalUsec. now rewrite Hlook. }
  assert (He1 : heap (set_store st s1) !! (d, r).2 = Some e1).
  { simpl. apply handle_insert_eq. now exists e0. }
  assert (Hnext : next (wrap32 ((fun _ : nat => now) (ticks (set_store st s1)))) (base e1)
                  = (now >=? us)).
  { unfold e1. rewrite base_with_base. unfold e0. rewrite make_element_base.
    unfold next. simpl. now rewrite !wrap32_small. }
  assert (Hpost : post (fun _ => now) (set_store st s1)
                  = post_entry (fun _ => now) (d, r) (set_store st s1)).
  { apply post_single_entry. exact Hmap. }
  destruct (now >=? us) eqn:Hge.
  - pose proof (post_entry_due (fun _ => now) (d, r) (set_store st s1) e1 He1 Hnext) as Hstep.
    cbv zeta in Hstep. rewrite <- Hpost in Hstep.
    eexists. split; [rewrite Hp1; exact Hset|]. split; [exact Hstep|].
    cbn [wire store set_store]. unfold stamped, e1.
    rewrite !encodeTo_with_base. unfold e0. rewrite encodeTo_make_element.
    split; reflexivity.
  - pose proof (post_entry_idle (fun _ => now) (d, r) (set_store st s1) e1 He1 Hnext) as Hstep.
    rewrite <- Hpost in Hstep.
    eexists. split; [rewrite Hp1; exact Hset|]. split; [exact Hstep|].
    simpl. rewrite app_nil_r. split; reflexivity.
Qed.

Lemma first_tick_after_publish_witness :
  dest_map (initial_state (fun _ => ArgInt32 0)) = []
  /\ uint32 100000 /\ uint32 150000
  /\ let p := publish "10.0.0.5" 9000 "/x" (ByCallable (fun st => (ArgInt32 42, st)))
                (initial_state (fun _ => ArgInt32 0)) in
     exists s1 s2,
       handle_setIntervalUsec p.1 100000 p.2 = Some s1
       /\ post (fun _ => 150000) (set_store (fun _ => ArgInt32 0) s1) = Some s2
       /\ wire s2
          = wire (initial_state (fun _ => ArgInt32 0))
            ++ (if 150000 >=? 100000
                then [mkDatagram false "10.0.0.5" 9000
                        [mkMessage "/x"
                           [(source_value (store (initial_state (fun _ => ArgInt32 0)))
                               (ByCallable (fun st => (ArgInt32 42, st)))
                               (fun _ => ArgInt32 0)).1]]]
                else [])
       /\ store s2
          = (if 150000 >=? 100000
             then (source_value (store (initial_state (fun _ => ArgInt32 0)))
                     (ByCallable (fun st => (ArgInt32 42, st))) (fun _ => ArgInt32 0)).2
             else (fun _ => ArgInt32 0)).
Proof.
  split; [reflexivity|]. split; [unfold uint32; lia|]. split; [unfold uint32; lia|].
  apply (first_tick_after_publish "10.0.0.5" 9000 "/x"
           (ByCallable (fun st => (ArgInt32 42, st))) 100000 150000
           (fun _ => ArgInt32 0) (initial_state (fun _ => ArgInt32 0)));
    [reflexivity|unfold uint32; lia..].
Defined.

(** ** One-off sends between ticks *)

Section PostAfterSend.

Variable clock : nat -> Z.

Lemma post_entry_same_schedule (wA wB : list Datagram) (mp : Destination * ElementRef)
    (a b : State) :
  same_schedule wA wB a b ->
  option_Forall2 (same_schedule wA wB) (post_entry clock mp a) (post_entry clock mp b).
Proof.
  intros [Hh Hst Htk Hdm (sent & Hwa & Hwb)].
  destruct (heap b !! mp.2) as [e|] eqn:He.
  - assert (Hea : heap a !! mp.2 = Some e) by now rewrite Hh.
    destruct (next (wrap32 (clock (ticks b))) (base e)) eqn:Hn.
    + rewrite (post_entry_due clock mp b e He Hn).
      rewrite <- Htk in Hn. rewrite (post_entry_due clock mp a e Hea Hn).
      cbv zeta. unfold Message_init. rewrite Hh, Hst, Htk.
      constructor. constructor; simpl; try reflexivity; [exact Hdm|].
      eexists. rewrite Hwa, Hwb, <- !app_assoc. split; reflexivity.
    + rewrite (post_entry_idle clock mp b e He Hn).
      rewrite <- Htk in Hn. rewrite (post_entry_idle clock mp a e Hea Hn).
      constructor. constructor; simpl; try assumption; [now rewrite Htk|].
      now exists sent.
  - unfold post_entry. rewrite Hh, He. constructor.
Qed.

Lemma post_entries_same_schedule (wA wB : list Datagram) (entries : DestinationMap) :
  forall a b,
  same_schedule wA wB a b ->
  option_Forall2 (same_schedule wA wB) (post_entries clock entries a) (post_entries clock entries b).
Proof.
  induction entries as [|mp rest IH]; intros a b Hab; simpl.
  - now constructor.
  - destruct (post_entry_same_schedule wA wB mp a b Hab) as [a' b' Hab'|].
    + simpl. now apply IH.
    + constructor.
Qed.

End PostAfterSend.

(** X12: a one-off [send] does not disturb the publishers.  On a
    well-formed registry, [post()] after [send(ip, port, addr, args...)]
    returns and sends, after the one-off datagram, the very datagrams it
    sends without the one-off send, and leaves the elements, the caller's
    storage and the clock reads in the same state. *)
Theorem post_after_send (clock : nat -> Z) (ip : string) (port : Z) (addr : string)
    (ts : list OscArg) (s : State) :
  registry_wf s ->
  exists s0 s1 sent,
    post clock s = Some s0
    /\ post clock (Manager_send ip port addr ts s) = Some s1
    /\ wire s0 = wire s ++ sent
    /\ wire s1 = (wire s ++ [mkDatagram false ip port [mkMessage addr ts]]) ++ sent
    /\ heap s1 = heap s0 /\ store s1 = store s0 /\ ticks s1 = ticks s0
    /\ dest_map s1 = dest_map s0.
Proof.
  intros Hwf. destruct (post_wf clock s Hwf) as (s0 & Hpost0 & _).
  set (sA := Manager_send ip port addr ts s).
  assert (HA : same_schedule (wire s ++ [mkDatagram false ip port [mkMessage addr ts]])
                 (wire s) sA s).
  { unfold sA, Manager_send, Client_send. rewrite Client_send_rest_spec.
    constructor; simpl; try reflexivity. exists []. now rewrite !app_nil_r. }
  pose proof (post_entries_same_schedule clock _ _ (dest_map s) sA s HA) as Hrun.
  assert (HpostA : post clock sA = post_entries clock (dest_map s) sA).
  { unfold post. f_equal. apply HA. }
  unfold post in Hpost0. rewrite Hpost0, <- HpostA in Hrun.
  inversion Hrun as [s1 s0' [Hh Hst Htk Hdm (sent & Hw1 & Hw0)] Heq1 Heq0|]; subst.
  exists s0, s1, sent. repeat split; assumption.
Qed.

Lemma post_after_send_witness :
  registry_wf two_publishers
  /\ exists s0 s1 sent,
      post (fun _ => 50000) two_publishers = Some s0
      /\ post (fun _ => 50000)
           (Manager_send "10.0.0.8" 7000 "/once" [ArgInt32 1; ArgBool true] two_publishers)
         = Some s1
      /\ wire s0 = wire two_publishers ++ sent
      /\ wire s1
         = (wire two_publishers
            ++ [mkDatagram false "10.0.0.8" 7000 [mkMessage "/once" [ArgInt32 1; ArgBool true]]])
           ++ sent
      /\ heap s1 = heap s0 /\ store s1 = store s0 /\ ticks s1 = ticks s0
      /\ dest_map s1 = dest_map s0.
Proof.
  split; [apply two_publishers_wf|].
  apply (post_after_send (fun _ => 50000) "10.0.0.8" 7000 "/once"
           [ArgInt32 1; ArgBool true] two_publishers), two_publishers_wf.
Defined.

(** ** Totality of the key order *)

(** X13: of two destinations exactly one of three holds: the first is
    less, the second is less, or they have the same ip, port and addr.  So
    [operator<] orders any two destinations that differ in the triple,
    which is what lets the registry keep them apart. *)
Theorem Destination_lt_trichotomy (d1 d2 : Destination) :
  (Destination_lt d1 d2 = true /\ Destination_lt d2 d1 = false /\ ~ same_triple d1 d2)
  \/ (Destination_lt d1 d2 = false /\ Destination_lt d2 d1 = true /\ ~ same_triple d1 d2)
  \/ (Destination_lt d1 d2 = false /\ Destination_lt d2 d1 = false /\ same_triple d1 d2).
Proof.
  destruct (Destination_lt d1 d2) eqn:H12.
  - left. split; [reflexivity|]. split; [now apply Destination_lt_asym|].
    intros Hs. apply incomparable_same_triple in Hs as [Hf _]. congruence.
  - destruct (Destination_lt d2 d1) eqn:H21.
    + right; left. repeat split.
      intros Hs. apply incomparable_same_triple in Hs as [_ Hf]. congruence.
    + right; right. repeat split; now apply incomparable_same_triple.
Qed.

(** ** Looking a publisher up *)

Lemma map_find_present (d : Destination) (m : DestinationMap) (mp : Destination * ElementRef) :
  StronglySorted key_lt m -> mp ∈ m -> same_triple mp.1 d ->
  map_find d m = Some mp.2.
Proof.
  induction m as [|e rest IH]; intros Hs Hin Hsame.
  - now apply elem_of_nil in Hin.
  - apply StronglySorted_inv in Hs as [Hs Hlt]. simpl.
    apply elem_of_cons in Hin as [->|Hin].
    + assert (Heq : Destination_equiv d e.1 = true).
      { apply Destination_equiv_same_triple. destruct Hsame as (? & ? & ?).
        repeat split; congruence. }
      now rewrite Heq.
    + rewrite List.Forall_forall in Hlt.
      pose proof (Hlt mp (proj1 (list_elem_of_In _ _) Hin)) as Hemp. unfold key_lt in Hemp.
      assert (Hne : Destination_equiv d e.1 = false).
      { apply Destination_equiv_false. intros (Hi & Hp & Ha).
        destruct Hsame as (Hi' & Hp' & Ha').
        assert (Hst : same_triple e.1 mp.1) by (repeat split; congruence).
        apply incomparable_same_triple in Hst as [Hf _]. congruence. }
      rewrite Hne. now apply IH.
Qed.

Lemma map_find_absent (d : Destination) (m : DestinationMap) :
  (forall mp, mp ∈ m -> ~ same_triple mp.1 d) -> map_find d m = None.
Proof.
  induction m as [|e rest IH]; intros Hno; [reflexivity|]. simpl.
  rewrite Destination_equiv_false.
  - apply IH. intros mp Hmp. apply Hno. now right.
  - intros (Hi & Hp & Ha). apply (Hno e); [left|]. repeat split; congruence.
Qed.

Lemma post_entries_app (clock : nat -> Z) (l1 l2 : DestinationMap) (s : State) :
  post_entries clock (l1 ++ l2) s = post_entries clock l1 s ≫= post_entries clock l2.
Proof.
  revert s. induction l1 as [|mp l1 IH]; intros s; simpl; [reflexivity|].
  destruct (post_entry clock mp s) as [s1|]; simpl; [apply IH|reflexivity].
Qed.

(** X14: [getPublishElementRef] on a well-formed registry.  For a
    destination whose (ip, port, addr) is registered it returns the
    registered handle and changes nothing.  For one that is not registered
    it returns the null handle and leaves an entry with the null handle in
    the registry, the other entries and all objects as before; from then
    on [post()], whatever the clock reads, follows the null handle when it
    reaches that entry and has no defined result. *)
Theorem getPublishElementRef_placeholder (clock : nat -> Z)
    (ip : string) (port : Z) (addr : string) (s : State) :
  registry_wf s ->
  let d := Destination_new ip port addr in
  let g := getPublishElementRef ip port addr s in
  (forall mp, mp ∈ dest_map s -> same_triple mp.1 d -> g = (mp.2, s))
  /\ ((forall mp, mp ∈ dest_map s -> ~ same_triple mp.1 d) ->
      g.1 = None
      /\ (exists l1 l2, dest_map s = l1 ++ l2 /\ dest_map g.2 = l1 ++ (d, None) :: l2)
      /\ heap g.2 = heap s
      /\ post clock g.2 = None).
Proof.
  intros Hwf. cbv zeta. unfold getPublishElementRef. split.
  - intros mp Hin Hsame.
    now rewrite (map_find_present _ _ mp (wf_sorted s Hwf) Hin Hsame).
  - intros Hno. rewrite (map_find_absent _ _ Hno). simpl.
    destruct (map_insert_absent (Destination_new ip port addr, None) (dest_map s) Hno)
      as (l1 & l2 & Hm & Hins).
    split; [reflexivity|]. split; [now exists l1, l2|]. split; [reflexivity|].
    unfold post. cbn [dest_map set_dest_map]. rewrite Hins, post_entries_app.
    destruct (post_entries clock l1 _) as [s1|]; [|reflexivity].
    reflexivity.
Qed.

Lemma getPublishElementRef_placeholder_witness :
  registry_wf two_publishers
  /\ let d := Destination_new "10.0.0.1" 9000 "/a" in
     let g := getPublishElementRef "10.0.0.1" 9000 "/a" two_publishers in
     (forall mp, mp ∈ dest_map two_publishers -> same_triple mp.1 d ->
        g = (mp.2, two_publishers))
     /\ ((forall mp, mp ∈ dest_map two_publishers -> ~ same_triple mp.1 d) ->
         g.1 = None
         /\ (exists l1 l2, dest_map two_publishers = l1 ++ l2
                           /\ dest_map g.2 = l1 ++ (d, None) :: l2)
         /\ heap g.2 = heap two_publishers
         /\ post (fun _ => 50000) g.2 = None).
Proof.
  split; [apply two_publishers_wf|].
  apply (getPublishElementRef_placeholder (fun _ => 50000) "10.0.0.1" 9000 "/a"
           two_publishers), two_publishers_wf.
Defined.
